(** * swgoh-automation: the logging and error-recovery utilities

  A shallow embedding of [src/utils/logger.py] and
  [src/utils/error_handler.py], followed by the properties of the
  recovery manager, the decorator wrapper, the circuit breaker, the
  performance window and the log retention clean-up.

  Python objects that are mutated in place are modelled by explicit state
  passing: every method takes the object (and the part of the world it
  touches) and returns the updated one. *)

From Stdlib Require Import ZArith QArith Lia.
From stdpp Require Import base strings pretty gmap list.

Local Open Scope Z_scope.

(** ** Python values used by both source files *)

Module py.

(** A naive [datetime] is the number of microseconds since the epoch, a
    [timedelta] a number of microseconds. Python bounds both (years 1 to
    9999, a billion days); the bounds are not modelled. *)
Abbreviation datetime := Z.
Abbreviation timedelta := Z.

Definition us_per_second : Z := 1000000.
Definition seconds_per_day : Z := 86400.
Definition us_per_day : Z := seconds_per_day * us_per_second.

(** [timedelta(days=n)] *)
Definition timedelta_of_days (n : Z) : timedelta := n * us_per_day.

(** [timedelta(seconds=n)] *)
Definition timedelta_of_seconds (n : Z) : timedelta := n * us_per_second.

(** A [timedelta] is stored as [days], [seconds] and [microseconds] with
    [0 <= seconds < 86400] and [0 <= microseconds < 1000000]; [days]
    carries the sign. *)
Definition td_days (d : timedelta) : Z := d / us_per_day.
Definition td_seconds (d : timedelta) : Z := (d mod us_per_day) / us_per_second.
Definition td_microseconds (d : timedelta) : Z := d mod us_per_second.

(** An exception object: its class name and [str(e)]. Every exception of
    the model is an instance of [Exception], the class the handlers of
    both files catch. *)
Record PyException := mkExc { exc_type : string; exc_str : string }.

(** How a call ends. *)
Inductive Outcome (A : Type) : Type :=
| Return (a : A)
| Raise (e : PyException).
Arguments Return {A} a.
Arguments Raise {A} e.

(** [l[-n:]] *)
Definition last_n {A} (n : nat) (l : list A) : list A :=
  drop (length l - n)%nat l.

End py.

(** ** [src/utils/logger.py] *)

Module logger.
Import py.

Inductive Level := DEBUG | INFO | WARNING | ERROR | CRITICAL.

(** One element of a performance window: the dict
    [{'timestamp': ..., 'duration': ...}]. *)
Record PerfEntry := mkPerf { pe_timestamp : datetime; pe_duration : Q }.

(** The logger object. [emitted] is the stream of records handed to the
    underlying [logging.Logger], in order. *)
Record SWGOHLogger := mkLogger {
  name : string;
  log_dir : string;
  error_count : Z;
  warning_count : Z;
  session_start : datetime;
  performance_data : gmap string (list PerfEntry);
  emitted : list (Level * string)
}.

(** [SWGOHLogger.__init__] *)
Definition init (name log_dir : string) (now : datetime) : SWGOHLogger :=
  mkLogger name log_dir 0 0 now ∅ [].

Definition set_performance_data (d : gmap string (list PerfEntry))
    (self : SWGOHLogger) : SWGOHLogger :=
  mkLogger (name self) (log_dir self) (error_count self) (warning_count self)
           (session_start self) d (emitted self).

Definition emit (level : Level) (message : string) (self : SWGOHLogger)
    : SWGOHLogger :=
  mkLogger (name self) (log_dir self) (error_count self) (warning_count self)
           (session_start self) (performance_data self)
           (emitted self ++ [(level, message)]).

Definition bump_error_count (self : SWGOHLogger) : SWGOHLogger :=
  mkLogger (name self) (log_dir self) (error_count self + 1)
           (warning_count self) (session_start self) (performance_data self)
           (emitted self).

Definition bump_warning_count (self : SWGOHLogger) : SWGOHLogger :=
  mkLogger (name self) (log_dir self) (error_count self)
           (warning_count self + 1) (session_start self)
           (performance_data self) (emitted self).

(** [key = f"{module}.{function}"] *)
Definition perf_key (module function : string) : string :=
  module +:+ "." +:+ function.

(** [SWGOHLogger.record_performance]; [now] is the reading of
    [datetime.now()]. *)
Definition record_performance (module function : string) (duration : Q)
    (now : datetime) (self : SWGOHLogger) : SWGOHLogger :=
  let key := perf_key module function in
  let d0 := performance_data self in
  (* if key not in self.performance_data: self.performance_data[key] = [] *)
  let d1 := match d0 !! key with
            | None => <[key := []]> d0
            | Some _ => d0
            end in
  (* self.performance_data[key].append({...}) *)
  let d2 := alter (λ l, l ++ [mkPerf now duration]) key d1 in
  (* if len(...) > 100: self.performance_data[key] = ...[-100:] *)
  let d3 := match d2 !! key with
            | Some l => if (100 <? length l)%nat
                        then <[key := last_n 100 l]> d2
                        else d2
            | None => d2
            end in
  set_performance_data d3 self.

(** What [_log] needs from a call that carries the keyword [duration]:
    the module and function of the caller's frame, the duration and the
    clock reading. *)
Record PerfCall := mkPerfCall {
  pc_module : string; pc_function : string;
  pc_duration : Q; pc_now : datetime
}.

(** [SWGOHLogger._log]. The keyword arguments are forwarded as extra data;
    the only one the logger itself looks at is [duration], so [perf] is
    [Some _] exactly when ['duration' in kwargs]. *)
Definition _log (level : Level) (message : string) (perf : option PerfCall)
    (self : SWGOHLogger) : SWGOHLogger :=
  let self := emit level message self in
  match perf with
  | Some c =>
      record_performance (pc_module c) (pc_function c) (pc_duration c)
                         (pc_now c) self
  | None => self
  end.

Definition debug (message : string) (perf : option PerfCall)
    (self : SWGOHLogger) : SWGOHLogger :=
  _log DEBUG message perf self.

Definition info (message : string) (perf : option PerfCall)
    (self : SWGOHLogger) : SWGOHLogger :=
  _log INFO message perf self.

Definition warning (message : string) (perf : option PerfCall)
    (self : SWGOHLogger) : SWGOHLogger :=
  _log WARNING message perf (bump_warning_count self).

(** [SWGOHLogger.error]: a given exception is appended to the message. *)
Definition error (message : string) (exception : option PyException)
    (perf : option PerfCall) (self : SWGOHLogger) : SWGOHLogger :=
  let self := bump_error_count self in
  let message :=
    match exception with
    | Some e => message +:+ " - Exception: " +:+ exc_type e +:+ ": "
                        +:+ exc_str e
    | None => message
    end in
  _log ERROR message perf self.

Definition critical (message : string) (perf : option PerfCall)
    (self : SWGOHLogger) : SWGOHLogger :=
  _log CRITICAL message perf self.

(** *** The log directory

    The directory is a finite map from file names to what [os.path.isfile]
    and [os.path.getmtime] report; [mtime] is the modification time after
    [datetime.fromtimestamp]. The operating-system calls of the model do
    not fail, so the [except] branch of [cleanup_old_logs] is never
    entered; that the log handlers write to files of this same directory
    is not modelled either. *)
Record DirEntry := mkEntry { is_file : bool; mtime : datetime }.

(** [os.listdir]: the names, in the order the map enumerates them. *)
Definition listdir (fs : gmap string DirEntry) : list string :=
  (map_to_list fs).*1.

(** The body of the [for filename in os.listdir(...)] loop. *)
Fixpoint cleanup_loop (listing : list string) (cutoff_date : datetime)
    (fs : gmap string DirEntry) (self : SWGOHLogger)
    : gmap string DirEntry * SWGOHLogger :=
  match listing with
  | [] => (fs, self)
  | filename :: rest =>
      match fs !! filename with
      | Some f =>
          if is_file f then
            if mtime f <? cutoff_date then
              (* os.remove(file_path); self.info(...) *)
              cleanup_loop rest cutoff_date (delete filename fs)
                (info ("Cleaned up old log file: " +:+ filename) None self)
            else cleanup_loop rest cutoff_date fs self
          else cleanup_loop rest cutoff_date fs self
      | None => cleanup_loop rest cutoff_date fs self
      end
  end.

(** [SWGOHLogger.cleanup_old_logs] *)
Definition cleanup_old_logs (days_to_keep : Z) (now : datetime)
    (fs : gmap string DirEntry) (self : SWGOHLogger)
    : gmap string DirEntry * SWGOHLogger :=
  let cutoff_date := now - timedelta_of_days days_to_keep in
  cleanup_loop (listdir fs) cutoff_date fs self.


(** *** Convenience records and the timing context manager

    The methods below reach [_log] through [info], [debug] or [error], so
    the frame [_log] inspects is the method itself: a duration they pass is
    recorded under the name of this module ([module_name], the [__name__]
    it was imported under) and the name of the method. *)

(** [SWGOHLogger.log_action_start]; [duration] is the keyword [duration]
    when the caller passes one among the extra keywords. *)
Definition log_action_start (module_name action : string)
    (duration : option Q) (now : datetime) (self : SWGOHLogger)
    : SWGOHLogger :=
  info ("Starting action: " +:+ action)
       ((λ d, mkPerfCall module_name "log_action_start" d now) <$> duration)
       self.

(** The two ways a call of [log_action_end] comes to a duration: the
    keyword [duration], or the keyword [start_time], from which the
    duration is the reading of [time.time()] minus it (computed here
    exactly, where Python rounds). A call with neither stores [None] as
    the duration, which [PerfEntry] has no value for; it is left out. *)
Inductive EndTiming :=
| Duration (duration : Q)
| StartTime (start_time : Q).

(** [SWGOHLogger.log_action_end] *)
Definition log_action_end (module_name action : string) (success : bool)
    (timing : EndTiming) (time_now : Q) (now : datetime)
    (self : SWGOHLogger) : SWGOHLogger :=
  let duration :=
    match timing with
    | Duration d => d
    | StartTime s => (time_now - s)%Q
    end in
  let status := if success then "SUCCESS" else "FAILED" in
  info ("Action " +:+ action +:+ " " +:+ status)
       (Some (mkPerfCall module_name "log_action_end" duration now)) self.

(** [SWGOHLogger.log_screenshot] *)
Definition log_screenshot (purpose : string) (file_path : option string)
    (self : SWGOHLogger) : SWGOHLogger :=
  debug ("Screenshot captured: " +:+ purpose) None self.

(** [SWGOHLogger.log_ai_decision] *)
Definition log_ai_decision (decision : string) (self : SWGOHLogger)
    : SWGOHLogger :=
  info ("AI Decision: " +:+ decision) None self.

(** The statement [with PerformanceTimer(logger, operation): body].
    [t_enter] and [t_exit] are the readings of [time.time()] in
    [__enter__] and [__exit__], [now] the reading of [datetime.now()] when
    the duration is recorded. [__exit__] returns [None], so what the body
    raises leaves the statement. *)
Definition timed {A : Type} (module_name operation : string)
    (body : SWGOHLogger → Outcome A * SWGOHLogger) (t_enter t_exit : Q)
    (now : datetime) (self : SWGOHLogger) : Outcome A * SWGOHLogger :=
  (* __enter__ *)
  let start_time := t_enter in
  let self := log_action_start module_name operation None now self in
  let '(result, self) := body self in
  (* __exit__ *)
  let duration := (t_exit - start_time)%Q in
  match result with
  | Raise exc_val =>
      (Raise exc_val,
       error ("Operation " +:+ operation +:+ " failed: " +:+ exc_str exc_val)
             (Some exc_val)
             (Some (mkPerfCall module_name "__exit__" duration now)) self)
  | Return a =>
      (Return a,
       log_action_end module_name operation true (Duration duration) t_exit
                      now self)
  end.

End logger.

(** ** [src/utils/error_handler.py] *)

Module error_handler.
Import py.

Inductive ErrorSeverity := LOW | MEDIUM | HIGH | CRITICAL.

Inductive ErrorCategory :=
| SCREEN_RECOGNITION | NETWORK | GAME_STATE | RESOURCE
| CONFIGURATION | AI_DECISION | USER_INPUT | SYSTEM.

(** The [.value] of the enumeration members. *)
Definition severity_value (s : ErrorSeverity) : string :=
  match s with
  | LOW => "low" | MEDIUM => "medium" | HIGH => "high" | CRITICAL => "critical"
  end.

Definition category_value (c : ErrorCategory) : string :=
  match c with
  | SCREEN_RECOGNITION => "screen_recognition"
  | NETWORK => "network"
  | GAME_STATE => "game_state"
  | RESOURCE => "resource"
  | CONFIGURATION => "configuration"
  | AI_DECISION => "ai_decision"
  | USER_INPUT => "user_input"
  | SYSTEM => "system"
  end.

#[export] Instance ErrorSeverity_eq_dec : EqDecision ErrorSeverity.
Proof. solve_decision. Defined.

#[export] Instance ErrorCategory_eq_dec : EqDecision ErrorCategory.
Proof. solve_decision. Defined.

(** Categories are dictionary keys. *)
Definition category_code (c : ErrorCategory) : positive :=
  match c with
  | SCREEN_RECOGNITION => 1 | NETWORK => 2 | GAME_STATE => 3 | RESOURCE => 4
  | CONFIGURATION => 5 | AI_DECISION => 6 | USER_INPUT => 7 | SYSTEM => 8
  end%positive.

Definition category_of_code (p : positive) : option ErrorCategory :=
  match p with
  | 1 => Some SCREEN_RECOGNITION | 2 => Some NETWORK | 3 => Some GAME_STATE
  | 4 => Some RESOURCE | 5 => Some CONFIGURATION | 6 => Some AI_DECISION
  | 7 => Some USER_INPUT | 8 => Some SYSTEM | _ => None
  end%positive.

#[export] Instance ErrorCategory_countable : Countable ErrorCategory.
Proof.
  refine {| encode := category_code; decode := category_of_code |}.
  intros []; reflexivity.
Defined.

(** The dataclass [ErrorInfo]. *)
Record ErrorInfo := mkErrorInfo {
  exception : PyException;
  severity : ErrorSeverity;
  category : ErrorCategory;
  context : gmap string string;
  timestamp : datetime;
  recovery_attempts : Z;
  resolved : bool
}.

Definition set_recovery_attempts (n : Z) (e : ErrorInfo) : ErrorInfo :=
  mkErrorInfo (exception e) (severity e) (category e) (context e)
              (timestamp e) n (resolved e).

Definition set_resolved (b : bool) (e : ErrorInfo) : ErrorInfo :=
  mkErrorInfo (exception e) (severity e) (category e) (context e)
              (timestamp e) (recovery_attempts e) b.

(** What the code of this file acts on besides its own objects: the
    [SWGOHLogger] the manager was constructed with, the arguments of the
    calls of [time.sleep] so far, and the messages sent to the root logger
    of [logging]. *)
Record World := mkWorld {
  the_logger : logger.SWGOHLogger;
  slept : list Q;
  root_log : list string
}.

Definition sleep (seconds : Q) (w : World) : World :=
  mkWorld (the_logger w) (slept w ++ [seconds]) (root_log w).

Definition log_info (message : string) (w : World) : World :=
  mkWorld (logger.info message None (the_logger w)) (slept w) (root_log w).

Definition log_warning (message : string) (w : World) : World :=
  mkWorld (logger.warning message None (the_logger w)) (slept w) (root_log w).

Definition log_error (message : string) (e : option PyException) (w : World)
    : World :=
  mkWorld (logger.error message e None (the_logger w)) (slept w) (root_log w).

Definition logging_error (message : string) (w : World) : World :=
  mkWorld (the_logger w) (slept w) (root_log w ++ [message]).

(** The dataclass [RecoveryAction]. The callable [action] receives the
    error record, may act on the world, and returns a truth value or
    raises. *)
Record RecoveryAction := mkAction {
  name : string;
  action : ErrorInfo → World → Outcome bool * World;
  max_attempts : Z;
  delay_between_attempts : Q;
  conditions : option (list string)
}.

(** The dictionary [recovery_stats]; its three keys are fixed. *)
Record RecoveryStats := mkStats {
  total_errors : Z;
  resolved_errors : Z;
  failed_recoveries : Z
}.

(** The manager. [error_history] doubles as the store of the [ErrorInfo]
    objects: a record is appended when it is created and mutated in place
    afterwards, so a reference to a record is its position in the list. *)
Record ErrorRecoveryManager := mkManager {
  error_history : list ErrorInfo;
  recovery_actions : gmap ErrorCategory (list RecoveryAction);
  recovery_stats : RecoveryStats
}.

Definition set_error_history (h : list ErrorInfo) (self : ErrorRecoveryManager)
    : ErrorRecoveryManager :=
  mkManager h (recovery_actions self) (recovery_stats self).

Definition set_recovery_stats (s : RecoveryStats) (self : ErrorRecoveryManager)
    : ErrorRecoveryManager :=
  mkManager (error_history self) (recovery_actions self) s.

(** *** Recovery action implementations *)

Definition wait_and_retry (error_info : ErrorInfo) (w : World)
    : Outcome bool * World :=
  let wait_time := Z.min (recovery_attempts error_info * 2) 10 in
  let w := log_info ("Waiting " +:+ pretty wait_time +:+ "s before retry...") w in
  let w := sleep (inject_Z wait_time) w in
  (Return true, w).

Definition adjust_confidence_threshold (error_info : ErrorInfo) (w : World)
    : Outcome bool * World :=
  (Return true,
   log_info "Adjusting confidence threshold for image recognition" w).

Definition refresh_screen (error_info : ErrorInfo) (w : World)
    : Outcome bool * World :=
  (Return true, log_info "Refreshing game screen" w).

Definition navigate_to_main_menu (error_info : ErrorInfo) (w : World)
    : Outcome bool * World :=
  (Return true, log_info "Navigating to main menu" w).

Definition restart_game (error_info : ErrorInfo) (w : World)
    : Outcome bool * World :=
  (Return true, log_warning "Restarting game application" w).

Definition wait_for_network (error_info : ErrorInfo) (w : World)
    : Outcome bool * World :=
  let w := log_info "Waiting for network connection..." w in
  let w := sleep (inject_Z 5) w in
  (Return true, w).

Definition check_connection (error_info : ErrorInfo) (w : World)
    : Outcome bool * World :=
  (Return true, log_info "Checking network connection" w).

Definition clear_cache (error_info : ErrorInfo) (w : World)
    : Outcome bool * World :=
  (Return true, log_info "Clearing cache..." w).

Definition restart_automation (error_info : ErrorInfo) (w : World)
    : Outcome bool * World :=
  (Return true, log_warning "Restarting automation system" w).

Definition fallback_to_default_action (error_info : ErrorInfo) (w : World)
    : Outcome bool * World :=
  (Return true, log_info "Using fallback default action" w).

Definition skip_current_action (error_info : ErrorInfo) (w : World)
    : Outcome bool * World :=
  (Return true, log_info "Skipping current action" w).

(** [RecoveryAction(name, action, max_attempts=3,
    delay_between_attempts=1.0, conditions=None)] *)
Definition RecoveryAction_new (name : string)
    (action : ErrorInfo → World → Outcome bool * World)
    (max_attempts : option Z) (delay_between_attempts : option Q)
    : RecoveryAction :=
  mkAction name action (default 3 max_attempts)
           (default (inject_Z 1) delay_between_attempts) None.

(** [ErrorRecoveryManager.setup_recovery_actions] *)
Definition setup_recovery_actions
    : gmap ErrorCategory (list RecoveryAction) :=
  <[SCREEN_RECOGNITION := [
      RecoveryAction_new "wait_and_retry" wait_and_retry
                         (Some 3) (Some (inject_Z 2));
      RecoveryAction_new "adjust_confidence_threshold"
                         adjust_confidence_threshold (Some 2) None;
      RecoveryAction_new "refresh_screen" refresh_screen (Some 2) None ]]>
  (<[GAME_STATE := [
      RecoveryAction_new "navigate_to_main_menu" navigate_to_main_menu
                         (Some 3) None;
      RecoveryAction_new "restart_game" restart_game (Some 1) None ]]>
  (<[NETWORK := [
      RecoveryAction_new "wait_for_network" wait_for_network
                         (Some 5) (Some (inject_Z 5));
      RecoveryAction_new "check_connection" check_connection (Some 2) None ]]>
  (<[RESOURCE := [
      RecoveryAction_new "clear_cache" clear_cache (Some 1) None;
      RecoveryAction_new "restart_automation" restart_automation
                         (Some 1) None ]]>
  (<[AI_DECISION := [
      RecoveryAction_new "fallback_to_default_action"
                         fallback_to_default_action (Some 2) None;
      RecoveryAction_new "skip_current_action" skip_current_action
                         (Some 1) None ]]> ∅)))).

(** [ErrorRecoveryManager.__init__] *)
Definition init : ErrorRecoveryManager :=
  mkManager [] setup_recovery_actions (mkStats 0 0 0).

(** *** The recovery protocol *)

(** [error_info.recovery_attempts += 1] on the record referenced by [r]. *)
Definition bump_recovery_attempts (r : nat) (self : ErrorRecoveryManager)
    : ErrorRecoveryManager :=
  set_error_history
    (alter (λ e, set_recovery_attempts (recovery_attempts e + 1) e) r
           (error_history self))
    self.

(** [error_info.resolved = True] on the record referenced by [r]. *)
Definition mark_resolved (r : nat) (self : ErrorRecoveryManager)
    : ErrorRecoveryManager :=
  set_error_history (alter (set_resolved true) r (error_history self)) self.

(** The [for recovery_action in self.recovery_actions[category]] loop of
    [attempt_recovery]. [r] refers to [error_info]; a reference handed out
    by [handle_error] is always valid, the [None] branch is there for
    totality only. *)
Fixpoint recovery_loop (actions : list RecoveryAction) (r : nat)
    (self : ErrorRecoveryManager) (w : World)
    : bool * ErrorRecoveryManager * World :=
  match actions with
  | [] => (false, self, w)
  | recovery_action :: rest =>
      match error_history self !! r with
      | None => (false, self, w)
      | Some error_info =>
          if max_attempts recovery_action <=? recovery_attempts error_info
          then recovery_loop rest r self w
          else
            let w := log_info ("Attempting recovery: "
                               +:+ name recovery_action) w in
            let w := if Qlt_le_dec 0 (delay_between_attempts recovery_action)
                     then sleep (delay_between_attempts recovery_action) w
                     else w in
            match action recovery_action error_info w with
            | (Return success, w) =>
                let self := bump_recovery_attempts r self in
                if success then (true, self, w)
                else recovery_loop rest r self w
            | (Raise e, w) =>
                let w := log_error ("Recovery action failed: "
                                    +:+ name recovery_action) (Some e) w in
                recovery_loop rest r self w
            end
      end
  end.

(** [ErrorRecoveryManager.attempt_recovery] *)
Definition attempt_recovery (r : nat) (self : ErrorRecoveryManager)
    (w : World) : bool * ErrorRecoveryManager * World :=
  match error_history self !! r with
  | None => (false, self, w)
  | Some error_info =>
      match recovery_actions self !! category error_info with
      | None =>
          (false, self,
           log_warning ("No recovery actions for category: "
                        +:+ category_value (category error_info)) w)
      | Some actions => recovery_loop actions r self w
      end
  end.

(** [ErrorRecoveryManager.handle_error]; [now] is the reading of
    [datetime.now()]. *)
Definition handle_error (exception : PyException) (category : ErrorCategory)
    (severity : ErrorSeverity) (context : option (gmap string string))
    (now : datetime) (self : ErrorRecoveryManager) (w : World)
    : bool * ErrorRecoveryManager * World :=
  let error_info :=
    mkErrorInfo exception severity category (default ∅ context) now 0 false in
  let r := length (error_history self) in
  let self := set_error_history (error_history self ++ [error_info]) self in
  let self :=
    set_recovery_stats
      (mkStats (total_errors (recovery_stats self) + 1)
               (resolved_errors (recovery_stats self))
               (failed_recoveries (recovery_stats self))) self in
  let w := log_error ("Error detected: " +:+ category_value category
                      +:+ " - " +:+ exc_str exception) (Some exception) w in
  let '(recovered, self, w) := attempt_recovery r self w in
  if recovered then
    let self := mark_resolved r self in
    let self :=
      set_recovery_stats
        (mkStats (total_errors (recovery_stats self))
                 (resolved_errors (recovery_stats self) + 1)
                 (failed_recoveries (recovery_stats self))) self in
    let w := log_info ("Error recovered successfully: "
                       +:+ category_value category) w in
    (recovered, self, w)
  else
    let self :=
      set_recovery_stats
        (mkStats (total_errors (recovery_stats self))
                 (resolved_errors (recovery_stats self))
                 (failed_recoveries (recovery_stats self) + 1)) self in
    let w := log_error ("Failed to recover from error: "
                        +:+ category_value category) None w in
    (recovered, self, w).

(** *** The decorator [error_handler] *)

(** A positional argument of the wrapped function, as far as the wrapper
    looks at it: whether it has an attribute [error_recovery], and the
    manager (or [None]) that attribute holds. *)
Inductive PyArg :=
| Plain
| WithRecovery (error_recovery : option ErrorRecoveryManager).

(** The [for arg in args] search; the first argument with the attribute
    ends it. *)
Fixpoint find_recovery_manager (args : list PyArg)
    : option ErrorRecoveryManager :=
  match args with
  | [] => None
  | Plain :: rest => find_recovery_manager rest
  | WithRecovery m :: _ => m
  end.

(** The [wrapper] that [error_handler(category, severity)] puts around
    [func]. [args_str] and [kwargs_str] are [str(args)] and [str(kwargs)].
    Besides the outcome seen by the caller, the result holds the manager
    found among the arguments, as the call leaves it. *)
Definition wrapper {A : Type} (category : ErrorCategory)
    (severity : ErrorSeverity) (func_name : string)
    (func : World → Outcome A * World) (args : list PyArg)
    (args_str kwargs_str : string) (now : datetime) (w : World)
    : Outcome (option A) * option ErrorRecoveryManager * World :=
  match func w with
  | (Return a, w) => (Return (Some a), find_recovery_manager args, w)
  | (Raise e, w) =>
      let '(recovery_manager, w) :=
        match find_recovery_manager args with
        | Some recovery_manager =>
            let context : gmap string string :=
              <["function" := func_name]>
              (<["args" := String.substring 0 200 args_str]>
              (<["kwargs" := String.substring 0 200 kwargs_str]> ∅)) in
            let '(_, m, w) :=
              handle_error e category severity (Some context) now
                           recovery_manager w in
            (Some m, w)
        | None =>
            (None,
             logging_error ("Unhandled error in " +:+ func_name +:+ ": "
                            +:+ exc_str e) w)
        end in
      if decide (severity = CRITICAL)
      then (Raise e, recovery_manager, w)
      else (Return None, recovery_manager, w)
  end.

(** *** [get_error_summary] and [safe_execute] *)

(** The dictionary [get_error_summary] returns. [recovery_rate] is the
    exact quotient, of which Python returns the nearest float. *)
Record ErrorSummary := mkSummary {
  s_total_errors : Z;
  s_resolved_errors : Z;
  s_failed_recoveries : Z;
  s_recovery_rate : Q;
  s_recent_errors : nat;
  s_errors_by_category : gmap string Z
}.

(** One iteration of the [for error in self.error_history] loop. *)
Definition count_category (d : gmap string Z) (e : ErrorInfo)
    : gmap string Z :=
  let c := category_value (category e) in
  let d := match d !! c with
           | None => <[c := 0]> d
           | Some _ => d
           end in
  alter (λ n, n + 1) c d.

(** [ErrorRecoveryManager.get_error_summary]. The comprehension reads the
    clock once per record: [now_at i] is the reading for the record at
    position [i]. *)
Definition get_error_summary (now_at : nat → datetime)
    (self : ErrorRecoveryManager) : ErrorSummary :=
  let recent_errors :=
    filter (λ ie, now_at ie.1 - timestamp ie.2 < 3600 * us_per_second)
           (imap (λ i e, (i, e)) (error_history self)) in
  let error_by_category := foldl count_category ∅ (error_history self) in
  mkSummary
    (total_errors (recovery_stats self))
    (resolved_errors (recovery_stats self))
    (failed_recoveries (recovery_stats self))
    (inject_Z (resolved_errors (recovery_stats self))
     / inject_Z (Z.max (total_errors (recovery_stats self)) 1))%Q
    (length recent_errors)
    error_by_category.

(** [safe_execute]; the parameters [category] and [severity] are accepted
    and not used. *)
Definition safe_execute {A : Type} (func_name : string)
    (func : World → Outcome A * World) (default_return : A)
    (category : ErrorCategory) (severity : ErrorSeverity) (w : World)
    : A * World :=
  match func w with
  | (Return a, w) => (a, w)
  | (Raise e, w) =>
      (default_return,
       logging_error ("Safe execution failed for " +:+ func_name +:+ ": "
                      +:+ exc_str e) w)
  end.

(** *** [CircuitBreaker] *)

Inductive BreakerState := CLOSED | OPEN | HALF_OPEN.

#[export] Instance BreakerState_eq_dec : EqDecision BreakerState.
Proof. solve_decision. Defined.

Record CircuitBreaker := mkBreaker {
  failure_threshold : Z;
  recovery_timeout : Z;
  failure_count : Z;
  last_failure_time : option datetime;
  state : BreakerState
}.

(** [CircuitBreaker.__init__] *)
Definition CircuitBreaker_init (failure_threshold recovery_timeout : Z)
    : CircuitBreaker :=
  mkBreaker failure_threshold recovery_timeout 0 None CLOSED.

Definition set_state (s : BreakerState) (self : CircuitBreaker)
    : CircuitBreaker :=
  mkBreaker (failure_threshold self) (recovery_timeout self)
            (failure_count self) (last_failure_time self) s.

Definition set_failure_count (n : Z) (self : CircuitBreaker)
    : CircuitBreaker :=
  mkBreaker (failure_threshold self) (recovery_timeout self) n
            (last_failure_time self) (state self).

Definition set_last_failure_time (t : datetime) (self : CircuitBreaker)
    : CircuitBreaker :=
  mkBreaker (failure_threshold self) (recovery_timeout self)
            (failure_count self) (Some t) (state self).

Definition circuit_open_exception : PyException :=
  mkExc "Exception" "Circuit breaker is OPEN".

(** What subtracting [None] from a [datetime] raises. *)
Definition none_operand_exception : PyException :=
  mkExc "TypeError"
        "unsupported operand type(s) for -: 'datetime.datetime' and 'NoneType'".

(** The first statement of [call]: the check made when the breaker is
    [OPEN]. [now] is the reading of [datetime.now()]. The breaker either
    lets the call through, possibly as [HALF_OPEN], or raises. *)
Definition call_gate (self : CircuitBreaker) (now : datetime)
    : CircuitBreaker + PyException :=
  match state self with
  | OPEN =>
      match last_failure_time self with
      | Some last =>
          if recovery_timeout self <? td_seconds (now - last)
          then inl (set_state HALF_OPEN self)
          else inr circuit_open_exception
      | None => inr none_operand_exception
      end
  | _ => inl self
  end.

(** The [try] statement of [call]. The wrapped operation acts on a world of
    its own; [now_failure] is the clock reading taken in the handler. *)
Definition call_try {A W : Type} (self : CircuitBreaker)
    (func : W → Outcome A * W) (now_failure : datetime) (w : W)
    : Outcome A * CircuitBreaker * W :=
  match func w with
  | (Return result, w) =>
      let self := if decide (state self = HALF_OPEN)
                  then set_failure_count 0 (set_state CLOSED self)
                  else self in
      (Return result, self, w)
  | (Raise e, w) =>
      let self := set_failure_count (failure_count self + 1) self in
      let self := set_last_failure_time now_failure self in
      let self := if failure_threshold self <=? failure_count self
                  then set_state OPEN self
                  else self in
      (Raise e, self, w)
  end.

(** [CircuitBreaker.call] *)
Definition call {A W : Type} (self : CircuitBreaker) (now : datetime)
    (func : W → Outcome A * W) (now_failure : datetime) (w : W)
    : Outcome A * CircuitBreaker * W :=
  match call_gate self now with
  | inr e => (Raise e, self, w)
  | inl self => call_try self func now_failure w
  end.

End error_handler.

(** ** Runs and observations used in the statements *)

Module runs.
Import py.

(** The window stored for an operation key; empty when the key is absent. *)
Definition window (key : string) (self : logger.SWGOHLogger)
    : list logger.PerfEntry :=
  default [] (logger.performance_data self !! key).

(** A sequence of calls of [record_performance], in order. *)
Definition record_all (calls : list logger.PerfCall)
    (self : logger.SWGOHLogger) : logger.SWGOHLogger :=
  foldl (λ lg c, logger.record_performance
                   (logger.pc_module c) (logger.pc_function c)
                   (logger.pc_duration c) (logger.pc_now c) lg)
        self calls.

(** The entries the calls of one key contribute, in recording order. *)
Definition recorded_for (key : string) (calls : list logger.PerfCall)
    : list logger.PerfEntry :=
  omap (λ c, if decide (logger.perf_key (logger.pc_module c)
                                        (logger.pc_function c) = key)
             then Some (logger.mkPerf (logger.pc_now c) (logger.pc_duration c))
             else None)
       calls.

(** *** Recovery manager *)

Import error_handler.

(** An action that reports failure whenever it is executed. *)
Definition always_fails (ra : RecoveryAction) : Prop :=
  ∀ info w, ∃ w', action ra info w = (Return false, w').

(** The sum of the attempt budgets of a list of actions. *)
Definition budget_sum (actions : list RecoveryAction) : Z :=
  foldr Z.add 0 (max_attempts <$> actions).

(** The attempt counter after one pass over actions with the given budgets,
    none of which succeeds or raises: an action whose budget the counter
    has reached is skipped, every other one is executed once. *)
Fixpoint attempts_after (counter : Z) (budgets : list Z) : Z :=
  match budgets with
  | [] => counter
  | budget :: rest =>
      attempts_after (if budget <=? counter then counter else counter + 1) rest
  end.

(** The same action, made to report failure without doing anything. *)
Definition failing (ra : RecoveryAction) : RecoveryAction :=
  mkAction (name ra) (λ _ w, (Return false, w)) (max_attempts ra)
           (delay_between_attempts ra) (conditions ra).

(** A manager as constructed, with every registered action made to fail. *)
Definition failing_manager : ErrorRecoveryManager :=
  mkManager [] ((λ l : list RecoveryAction, failing <$> l)
                <$> setup_recovery_actions)
            (mkStats 0 0 0).

(** A world in which nothing has happened yet. *)
Definition fresh_world : World :=
  mkWorld (logger.init "swgoh_bot" "logs" 0) [] [].

(** The arguments of one call of [handle_error]. *)
Record HandleCall := mkHandleCall {
  hc_exception : PyException;
  hc_category : ErrorCategory;
  hc_severity : ErrorSeverity;
  hc_context : option (gmap string string);
  hc_now : datetime
}.

(** A sequence of calls of [handle_error] on one manager. *)
Definition handle_all (calls : list HandleCall)
    (self : ErrorRecoveryManager) (w : World) : ErrorRecoveryManager * World :=
  foldl (λ st c,
           let '(_, m, w) :=
             handle_error (hc_exception c) (hc_category c) (hc_severity c)
                          (hc_context c) (hc_now c) st.1 st.2 in
           (m, w))
        (self, w) calls.

(** What one pass changes of the manager: nothing but the attempt counter
    of the record it works on, and that counter only upwards. *)
Definition only_counter_moved (r : nat) (mgr mgr' : ErrorRecoveryManager)
    : Prop :=
  recovery_stats mgr' = recovery_stats mgr
  ∧ recovery_actions mgr' = recovery_actions mgr
  ∧ length (error_history mgr') = length (error_history mgr)
  ∧ (∀ j, j ≠ r → error_history mgr' !! j = error_history mgr !! j)
  ∧ (∀ info, error_history mgr !! r = Some info →
        ∃ c, recovery_attempts info ≤ c
             ∧ error_history mgr' !! r = Some (set_recovery_attempts c info)).

(** The first testable property of the specification, word for word: every
    action failing, the error ends unresolved with the attempt counter
    equal to the sum of the budgets. *)
Definition exhausts_budget_sum : Prop :=
  ∀ exc cat sev ctx now mgr w actions,
    recovery_actions mgr !! cat = Some actions →
    actions ≠ [] →
    Forall always_fails actions →
    ∃ mgr' w' info,
      handle_error exc cat sev ctx now mgr w = (false, mgr', w')
      ∧ last (error_history mgr') = Some info
      ∧ recovery_attempts info = budget_sum actions.

(** *** Decorator *)

Definition propagates {A} (o : Outcome A) : Prop :=
  match o with
  | Raise _ => True
  | Return _ => False
  end.

(** Whether the error handled last by the manager the wrapper found is
    still unresolved; without a manager no recovery took place. *)
Definition unresolved (m : option ErrorRecoveryManager) : Prop :=
  match m with
  | Some m => resolved <$> last (error_history m) ≠ Some true
  | None => True
  end.

(** The propagation policy of the specification, word for word, for a
    wrapped function that raises: a non-critical failure is swallowed, and
    an exception leaves the wrapper exactly when the severity is CRITICAL
    and recovery left the error unresolved. *)
Definition propagates_iff_unresolved_critical : Prop :=
  ∀ (A : Type) cat sev fname (func : World → Outcome A * World)
    args args_str kwargs_str now w e w1,
    func w = (Raise e, w1) →
    let '(out, m, _) :=
      wrapper cat sev fname func args args_str kwargs_str now w in
    (sev ≠ CRITICAL → out = Return None)
    ∧ (propagates out ↔ sev = CRITICAL ∧ unresolved m).

(** *** Circuit breaker *)

(** An operation that raises whenever it is invoked. *)
Definition fails {A W} (func : W → Outcome A * W) : Prop :=
  ∀ w, ∃ e w', func w = (Raise e, w').

(** The operation, with its invocations counted in the world. *)
Definition counted {A W} (func : W → Outcome A * W)
    : W * nat → Outcome A * (W * nat) :=
  λ '(w, n), let '(o, w) := func w in (o, (w, S n)).

(** The arguments of one [call]. *)
Record BreakerCall (A W : Type) := mkBreakerCall {
  bc_now : datetime;
  bc_func : W → Outcome A * W;
  bc_now_failure : datetime
}.
Arguments mkBreakerCall {A W} _ _ _.
Arguments bc_now {A W} _.
Arguments bc_func {A W} _.
Arguments bc_now_failure {A W} _.

(** A sequence of calls through one breaker. *)
Definition call_all {A W} (calls : list (BreakerCall A W))
    (self : CircuitBreaker) (w : W) : CircuitBreaker * W :=
  foldl (λ st c,
           let '(_, cb, w) :=
             call st.1 (bc_now c) (bc_func c) (bc_now_failure c) st.2 in
           (cb, w))
        (self, w) calls.

(** The breakers that exist while a program runs: a constructed one, one
    that has been through a call, and one between the check and the [try]
    statement of a call. *)
Inductive reachable : CircuitBreaker → Prop :=
| reach_init threshold timeout :
    reachable (CircuitBreaker_init threshold timeout)
| reach_call {A W} cb now (func : W → Outcome A * W) now_failure w :
    reachable cb → reachable (call cb now func now_failure w).1.2
| reach_gate cb now cb' :
    reachable cb → call_gate cb now = inl cb' → reachable cb'.

(** A breaker that is not [CLOSED] has reached its threshold. *)
Definition tripped_consistent (cb : CircuitBreaker) : Prop :=
  state cb ≠ CLOSED → failure_threshold cb ≤ failure_count cb.

(** An operation that raises whenever it is invoked, and does nothing
    else. *)
Definition raising_op (e : PyException) : unit → Outcome unit * unit :=
  λ w, (Raise e, w).

(** *** Further runs and observations *)

(** A call of one of the logging methods, or of [record_performance]. *)
Inductive LogOp :=
| OpDebug (message : string) (perf : option logger.PerfCall)
| OpInfo (message : string) (perf : option logger.PerfCall)
| OpWarning (message : string) (perf : option logger.PerfCall)
| OpError (message : string) (exception : option PyException)
          (perf : option logger.PerfCall)
| OpCritical (message : string) (perf : option logger.PerfCall)
| OpRecord (c : logger.PerfCall)
| OpActionStart (module_name action : string) (duration : option Q)
                (now : datetime)
| OpActionEnd (module_name action : string) (success : bool)
              (timing : logger.EndTiming) (time_now : Q) (now : datetime)
| OpScreenshot (purpose : string) (file_path : option string)
| OpAiDecision (decision : string).

Definition run_op (self : logger.SWGOHLogger) (op : LogOp)
    : logger.SWGOHLogger :=
  match op with
  | OpDebug m p => logger.debug m p self
  | OpInfo m p => logger.info m p self
  | OpWarning m p => logger.warning m p self
  | OpError m e p => logger.error m e p self
  | OpCritical m p => logger.critical m p self
  | OpRecord c =>
      logger.record_performance (logger.pc_module c) (logger.pc_function c)
                                (logger.pc_duration c) (logger.pc_now c) self
  | OpActionStart mn a d now => logger.log_action_start mn a d now self
  | OpActionEnd mn a s t tn now => logger.log_action_end mn a s t tn now self
  | OpScreenshot p f => logger.log_screenshot p f self
  | OpAiDecision d => logger.log_ai_decision d self
  end.

Definition run_ops (ops : list LogOp) (self : logger.SWGOHLogger)
    : logger.SWGOHLogger :=
  foldl run_op self ops.

Definition is_error_op (op : LogOp) : bool :=
  match op with OpError _ _ _ => true | _ => false end.

Definition is_warning_op (op : LogOp) : bool :=
  match op with OpWarning _ _ => true | _ => false end.

(** Whether the call hands a record to the underlying logger. *)
Definition emits_record (op : LogOp) : bool :=
  match op with OpRecord _ => false | _ => true end.

(** Every stored window holds between 1 and 100 entries. *)
Definition windows_in_range (self : logger.SWGOHLogger) : Prop :=
  ∀ key l, logger.performance_data self !! key = Some l →
           (1 ≤ length l ≤ 100)%nat.

(** The files a clean-up with the given cut-off deletes, in listing
    order. *)
Definition is_doomed (cutoff : datetime) (fs : gmap string logger.DirEntry)
    (filename : string) : bool :=
  match fs !! filename with
  | Some f => logger.is_file f && (logger.mtime f <? cutoff)
  | None => false
  end.

Definition doomed (cutoff : datetime) (fs : gmap string logger.DirEntry)
    : list string :=
  filter (λ n, is_doomed cutoff fs n = true) (logger.listdir fs).

(** The largest attempt budget among the actions, 0 when there is none. *)
Definition largest_budget (actions : list RecoveryAction) : Z :=
  foldr Z.max 0 (max_attempts <$> actions).

(** The record [handle_error] creates. *)
Definition new_record (exc : PyException) (cat : ErrorCategory)
    (sev : ErrorSeverity) (ctx : option (gmap string string))
    (now : datetime) : ErrorInfo :=
  mkErrorInfo exc sev cat (default ∅ ctx) now 0 false.

(** An action that returns without raising and leaves the error count of
    the logger as it is. *)
Definition quiet (ra : RecoveryAction) : Prop :=
  ∀ info w, ∃ b w',
    action ra info w = (Return b, w')
    ∧ logger.error_count (the_logger w') = logger.error_count (the_logger w).

(** A manager all of whose registered actions are quiet. *)
Definition quiet_manager (mgr : ErrorRecoveryManager) : Prop :=
  ∀ cat actions, recovery_actions mgr !! cat = Some actions →
                 Forall quiet actions.

(** What [time.sleep] is called with while the constructor's table
    handles an error of the category. *)
Definition sleeps_of (cat : ErrorCategory) : list Q :=
  match cat with
  | SCREEN_RECOGNITION => [inject_Z 2; inject_Z 0]
  | NETWORK => [inject_Z 5; inject_Z 5]
  | GAME_STATE | RESOURCE | AI_DECISION => [inject_Z 1]
  | CONFIGURATION | USER_INPUT | SYSTEM => []
  end.

Definition registered (cat : ErrorCategory) : bool :=
  match cat with
  | CONFIGURATION | USER_INPUT | SYSTEM => false
  | _ => true
  end.

(** The number of records of a category in a history. *)
Definition records_of (cat : ErrorCategory) (h : list ErrorInfo) : nat :=
  length (filter (λ e, category e = cat) h).

(** An operation that returns whenever it is invoked. *)
Definition succeeds {A W} (func : W → Outcome A * W) : Prop :=
  ∀ w, ∃ v w', func w = (Return v, w').

(** A call together with how its operation behaves. *)
Definition behaves {A W} (bc : bool * BreakerCall A W) : Prop :=
  if bc.1 then fails (bc_func bc.2) else succeeds (bc_func bc.2).

(** An [OPEN] or [HALF_OPEN] breaker has the time of a failure. *)
Definition tripped_has_time (cb : CircuitBreaker) : Prop :=
  state cb ≠ CLOSED → is_Some (last_failure_time cb).

End runs.

(** * Properties of [logger.py] *)

Section logger_properties.
Import py logger runs.

Lemma last_n_short {A} (n : nat) (l : list A) :
  (length l ≤ n)%nat → last_n n l = l.
Proof.
  intros Hlen. unfold last_n.
  replace (length l - n)%nat with 0%nat by lia. reflexivity.
Qed.

Lemma length_last_n {A} (n : nat) (l : list A) :
  length (last_n n l) = (length l `min` n)%nat.
Proof. unfold last_n. rewrite length_drop. lia. Qed.

Lemma last_n_app_last_n {A} (n : nat) (l r : list A) :
  last_n n (last_n n l ++ r) = last_n n (l ++ r).
Proof.
  destruct (decide (length l ≤ n)%nat) as [Hle|Hgt].
  - by rewrite (last_n_short n l).
  - unfold last_n. rewrite !length_app, length_drop.
    replace (length l - (length l - n) + length r - n)%nat
      with (length r) by lia.
    replace (length l + length r - n)%nat
      with ((length l - n) + length r)%nat by lia.
    rewrite <- drop_drop. f_equal.
    rewrite drop_app_le by lia. reflexivity.
Qed.

(** One call of [record_performance], seen through the window of a key. *)
Lemma window_record_performance key m f d t lg :
  window key (record_performance m f d t lg) =
  if decide (perf_key m f = key)
  then last_n 100 (window key lg ++ [mkPerf t d])
  else window key lg.
Proof.
  unfold window, record_performance. simpl.
  set (k := perf_key m f).
  set (d1 := match performance_data lg !! k with
             | None => <[k:=[]]> (performance_data lg)
             | Some _ => performance_data lg
             end).
  assert (Hd1 : d1 !! k = Some (default [] (performance_data lg !! k))).
  { subst d1. destruct (performance_data lg !! k) eqn:E; simpl.
    - exact E.
    - apply lookup_insert_eq. }
  assert (Hother : ∀ k', k ≠ k' → d1 !! k' = performance_data lg !! k').
  { intros k' Hne. subst d1. destruct (performance_data lg !! k); [done|].
    by rewrite lookup_insert_ne. }
  rewrite lookup_alter_eq, Hd1. simpl.
  set (l := default [] (performance_data lg !! k) ++ [mkPerf t d]).
  case_decide as Hk.
  - subst key. destruct (100 <? length l)%nat eqn:Hlen.
    + by rewrite lookup_insert_eq.
    + rewrite lookup_alter_eq, Hd1. simpl.
      apply Nat.ltb_ge in Hlen. by rewrite last_n_short.
  - destruct (100 <? length l)%nat.
    + rewrite lookup_insert_ne, lookup_alter_ne by done. by rewrite Hother.
    + rewrite lookup_alter_ne by done. by rewrite Hother.
Qed.

Lemma record_all_cons c calls lg :
  record_all (c :: calls) lg =
  record_all calls (record_performance (pc_module c) (pc_function c)
                                       (pc_duration c) (pc_now c) lg).
Proof. reflexivity. Qed.

Lemma recorded_for_cons key c calls :
  recorded_for key (c :: calls) =
  (if decide (perf_key (pc_module c) (pc_function c) = key)
   then [mkPerf (pc_now c) (pc_duration c)] else [])
  ++ recorded_for key calls.
Proof. unfold recorded_for. simpl. by case_decide. Qed.

(** A run of recordings, seen through the window of a key: provided the
    window was within the cap before, it holds the last 100 of what it
    held followed by what was recorded for the key. *)
Lemma window_record_all key calls lg :
  (length (window key lg) ≤ 100)%nat →
  window key (record_all calls lg) =
  last_n 100 (window key lg ++ recorded_for key calls).
Proof.
  revert lg. induction calls as [|c calls IH]; intros lg Hcap.
  - simpl. rewrite app_nil_r. by rewrite last_n_short.
  - rewrite record_all_cons, IH.
    + rewrite window_record_performance, recorded_for_cons.
      case_decide as Hk; [|done].
      rewrite last_n_app_last_n, <- app_assoc. reflexivity.
    + rewrite window_record_performance. case_decide; [|done].
      rewrite length_last_n. lia.
Qed.

Lemma recorded_for_same_key m f (d : nat → Q) (t : nat → datetime) ixs :
  recorded_for (perf_key m f) ((λ i, mkPerfCall m f (d i) (t i)) <$> ixs) =
  (λ i, mkPerf (t i) (d i)) <$> ixs.
Proof.
  induction ixs as [|i ixs IH]; [done|].
  rewrite !fmap_cons, recorded_for_cons, IH. simpl.
  by rewrite decide_True.
Qed.

(** C7. Whatever is recorded on a fresh logger, the window of every
    operation key is the last 100 of the durations recorded for that key,
    in recording order, so it never holds more than 100 entries; after 150
    recordings for one key it holds the 51st to the 150th. *)
Theorem record_performance_keeps_last_100 :
  ∀ (name log_dir : string) (t0 : datetime) (calls : list PerfCall)
    (key : string),
    let lg := record_all calls (init name log_dir t0) in
    window key lg = last_n 100 (recorded_for key calls)
    ∧ (length (window key lg) ≤ 100)%nat
    ∧ ∀ (m f : string) (d : nat → Q) (t : nat → datetime),
        window (perf_key m f)
               (record_all ((λ i, mkPerfCall m f (d i) (t i)) <$> seq 0 150)
                           (init name log_dir t0))
        = (λ i, mkPerf (t i) (d i)) <$> seq 50 100.
Proof.
  intros name log_dir t0 calls key lg.
  assert (Hfresh : ∀ k cs, window k (record_all cs (init name log_dir t0))
                           = last_n 100 (recorded_for k cs)).
  { intros k cs. rewrite window_record_all; [done|].
    unfold window, init. simpl. rewrite lookup_empty. simpl. lia. }
  split; [apply Hfresh|]. split.
  - subst lg. rewrite Hfresh, length_last_n. lia.
  - intros m f d t. rewrite Hfresh, recorded_for_same_key.
    unfold last_n. rewrite length_fmap, length_seq.
    change (150 - 100)%nat with 50%nat.
    rewrite <- fmap_drop. f_equal.
Qed.

(** What the loop of [cleanup_old_logs] leaves under a name: an entry is
    gone exactly when its name was listed, it is a regular file and its
    modification time is before the cut-off. *)
Lemma cleanup_loop_lookup listing cutoff fs lg (filename : string) :
  (cleanup_loop listing cutoff fs lg).1 !! filename =
  match fs !! filename with
  | Some f =>
      if decide (filename ∈ listing)
      then if is_file f && (mtime f <? cutoff) then None else Some f
      else Some f
  | None => None
  end.
Proof.
  revert fs lg. induction listing as [|n listing IH]; intros fs lg.
  - simpl. by destruct (fs !! filename).
  - cbn [cleanup_loop].
    assert (Hhere : n = filename → filename ∈ n :: listing)
      by (intros ->; apply elem_of_cons; by left).
    assert (Hthere : filename ∈ listing → filename ∈ n :: listing)
      by (intros ?; apply elem_of_cons; by right).
    assert (Hinv : filename ∈ n :: listing → n ≠ filename → filename ∈ listing)
      by (intros [?|?]%elem_of_cons; naive_solver).
    destruct (fs !! n) as [g|] eqn:Hg;
      [destruct (is_file g) eqn:Hfile;
       [destruct (mtime g <? cutoff) eqn:Hold|]|];
      rewrite IH; clear IH;
      (destruct (decide (n = filename)) as [->|Hne];
       [rewrite ?lookup_delete_eq, ?Hg, ?Hfile, ?Hold
       |rewrite ?lookup_delete_ne by done;
        destruct (fs !! filename) as [f|]; [|done]]);
      simpl; repeat case_decide; naive_solver.
Qed.

Lemma elem_of_listdir (fs : gmap string DirEntry) (filename : string) :
  filename ∈ listdir fs ↔ is_Some (fs !! filename).
Proof.
  unfold listdir. rewrite list_elem_of_fmap. split.
  - intros [[k f] [-> Hin]]. apply elem_of_map_to_list in Hin. by exists f.
  - intros [f Hf]. exists (filename, f). split; [done|].
    by apply elem_of_map_to_list.
Qed.

Lemma cleanup_old_logs_lookup days_to_keep now fs lg (filename : string) :
  (cleanup_old_logs days_to_keep now fs lg).1 !! filename =
  match fs !! filename with
  | Some f =>
      if is_file f && (mtime f <? now - timedelta_of_days days_to_keep)
      then None else Some f
  | None => None
  end.
Proof.
  unfold cleanup_old_logs. rewrite cleanup_loop_lookup.
  destruct (fs !! filename) as [f|] eqn:Hf; [|done].
  rewrite decide_True; [done|]. apply elem_of_listdir. by exists f.
Qed.



End logger_properties.

(** * Properties of the recovery manager *)

Section recovery_manager_properties.
Import py error_handler runs.

Lemma bump_recovery_attempts_lookup r mgr info :
  error_history mgr !! r = Some info →
  error_history (bump_recovery_attempts r mgr) !! r =
  Some (set_recovery_attempts (recovery_attempts info + 1) info).
Proof.
  intros Hinfo. unfold bump_recovery_attempts. simpl.
  by rewrite list_lookup_alter_eq, Hinfo.
Qed.

Lemma only_counter_moved_refl r mgr : only_counter_moved r mgr mgr.
Proof.
  repeat split. intros info Hinfo. exists (recovery_attempts info).
  split; [lia|]. by destruct info.
Qed.

Lemma only_counter_moved_trans r m1 m2 m3 :
  only_counter_moved r m1 m2 → only_counter_moved r m2 m3 →
  only_counter_moved r m1 m3.
Proof.
  intros (Hs & Ha & Hl & Ho & Hr) (Hs' & Ha' & Hl' & Ho' & Hr').
  repeat split; [congruence..| |].
  - intros j Hj. rewrite Ho' by done. by apply Ho.
  - intros info Hinfo.
    destruct (Hr info Hinfo) as (c & Hc & Hm2).
    destruct (Hr' _ Hm2) as (c' & Hc' & Hm3).
    exists c'. simpl in Hc'. split; [lia|]. by rewrite Hm3.
Qed.

Lemma only_counter_moved_bump r mgr :
  only_counter_moved r mgr (bump_recovery_attempts r mgr).
Proof.
  unfold bump_recovery_attempts. repeat split; simpl.
  - by rewrite length_alter.
  - intros j Hj. by rewrite list_lookup_alter_ne.
  - intros info Hinfo. exists (recovery_attempts info + 1).
    split; [lia|]. by rewrite list_lookup_alter_eq, Hinfo.
Qed.

Lemma recovery_loop_frame actions r mgr w :
  only_counter_moved r mgr (recovery_loop actions r mgr w).1.2.
Proof.
  revert mgr w. induction actions as [|ra rest IH]; intros mgr w;
    [apply only_counter_moved_refl|].
  cbn [recovery_loop].
  destruct (error_history mgr !! r) as [info|];
    [|apply only_counter_moved_refl].
  destruct (max_attempts ra <=? recovery_attempts info); [apply IH|].
  destruct (action ra info _) as [[success|e] w1]; [|apply IH].
  destruct success; [apply only_counter_moved_bump|].
  eapply only_counter_moved_trans; [apply only_counter_moved_bump|apply IH].
Qed.

(** A category that is not a key of the table: a warning, and no pass. *)
Lemma attempt_recovery_unregistered r mgr w info :
  error_history mgr !! r = Some info →
  recovery_actions mgr !! category info = None →
  attempt_recovery r mgr w =
  (false, mgr,
   log_warning ("No recovery actions for category: "
                +:+ category_value (category info)) w).
Proof. intros Hinfo Hnone. unfold attempt_recovery. by rewrite Hinfo, Hnone. Qed.

Lemma attempt_recovery_frame r mgr w :
  only_counter_moved r mgr (attempt_recovery r mgr w).1.2.
Proof.
  unfold attempt_recovery.
  destruct (error_history mgr !! r) as [info|];
    [|apply only_counter_moved_refl].
  destruct (recovery_actions mgr !! category info);
    [|apply only_counter_moved_refl].
  apply recovery_loop_frame.
Qed.

(** The reference [handle_error] hands to [attempt_recovery] is valid. *)
Lemma handle_error_reference (h : list ErrorInfo) (info : ErrorInfo) :
  (h ++ [info]) !! length h = Some info.
Proof. by rewrite lookup_app_r, Nat.sub_diag. Qed.

Lemma alter_last_record (f : ErrorInfo → ErrorInfo) (h : list ErrorInfo)
    (info : ErrorInfo) :
  alter f (length h) (h ++ [info]) = h ++ [f info].
Proof.
  rewrite <- (Nat.add_0_r (length h)). by rewrite alter_app_r.
Qed.

Lemma history_with_last_replaced (l h : list ErrorInfo) (x : ErrorInfo) :
  length l = length (h ++ [x]) →
  (∀ j, j ≠ length h → l !! j = (h ++ [x]) !! j) →
  ∃ y, l !! length h = Some y ∧ l = h ++ [y].
Proof.
  intros Hlen Hother.
  destruct (lookup_lt_is_Some_2 l (length h)) as [y Hy].
  { rewrite Hlen, length_app. simpl. lia. }
  exists y. split; [done|]. apply list_eq. intros j.
  destruct (decide (j = length h)) as [->|Hj].
  - by rewrite Hy, handle_error_reference.
  - rewrite Hother by done.
    destruct (decide (j < length h)%nat).
    + by rewrite !lookup_app_l.
    + rewrite !lookup_app_r by lia.
      destruct (j - length h)%nat as [|k] eqn:Hk; [lia|done].
Qed.

(** One call of [handle_error], seen from outside: the history grows by the
    record of this error, the registered actions stay, and the statistics
    move by one in [total_errors] and in the counter of the result. *)
Lemma handle_error_effect exc cat sev ctx now mgr w :
  ∃ info,
    let '(recovered, mgr', _) := handle_error exc cat sev ctx now mgr w in
    error_history mgr' !! length (error_history mgr) = Some info
    ∧ error_history mgr' = error_history mgr ++ [info]
    ∧ resolved info = recovered
    ∧ recovery_actions mgr' = recovery_actions mgr
    ∧ total_errors (recovery_stats mgr')
      = total_errors (recovery_stats mgr) + 1
    ∧ resolved_errors (recovery_stats mgr')
      = resolved_errors (recovery_stats mgr) + (if recovered then 1 else 0)
    ∧ failed_recoveries (recovery_stats mgr')
      = failed_recoveries (recovery_stats mgr) + (if recovered then 0 else 1).
Proof.
  unfold handle_error.
  set (info0 := mkErrorInfo exc sev cat (default ∅ ctx) now 0 false).
  set (mgr1 := set_recovery_stats _ (set_error_history _ mgr)).
  set (w1 := log_error _ _ w).
  pose proof (attempt_recovery_frame (length (error_history mgr)) mgr1 w1)
    as Hframe.
  destruct (attempt_recovery (length (error_history mgr)) mgr1 w1)
    as [[recovered mgr2] w2].
  simpl in Hframe.
  destruct Hframe as (Hstats & Hacts & Hlen & Hother & Hrec).
  destruct (Hrec info0 (handle_error_reference _ _)) as (c & _ & Hc).
  destruct (history_with_last_replaced (error_history mgr2)
              (error_history mgr) info0 Hlen Hother) as (y & Hy & Hhist).
  assert (y = set_recovery_attempts c info0) as -> by congruence.
  destruct recovered.
  - exists (set_resolved true (set_recovery_attempts c info0)). simpl.
    rewrite Hstats, Hacts, Hhist. simpl.
    rewrite alter_last_record, handle_error_reference.
    repeat split; lia.
  - exists (set_recovery_attempts c info0). simpl.
    rewrite Hstats, Hacts. simpl. repeat split; try done; lia.
Qed.

Lemma handle_all_snoc calls c mgr w :
  handle_all (calls ++ [c]) mgr w =
  let st := handle_all calls mgr w in
  let '(_, m, w) :=
    handle_error (hc_exception c) (hc_category c) (hc_severity c)
                 (hc_context c) (hc_now c) st.1 st.2 in
  (m, w).
Proof. unfold handle_all. by rewrite foldl_snoc. Qed.

(** C9. Every call of [handle_error] appends exactly one record to
    [error_history], adds one to [total_errors] and one to exactly one of
    [resolved_errors] and [failed_recoveries]; so on a manager that starts
    with an empty history and zeroed statistics, as the constructor makes
    it, [total_errors] is the sum of the other two and the length of the
    history after any sequence of calls. *)
Theorem handle_error_accounting :
  (∀ exc cat sev ctx now mgr w,
     ∃ info,
       let '(recovered, mgr', _) := handle_error exc cat sev ctx now mgr w in
       error_history mgr' = error_history mgr ++ [info]
       ∧ total_errors (recovery_stats mgr')
         = total_errors (recovery_stats mgr) + 1
       ∧ resolved_errors (recovery_stats mgr')
         = resolved_errors (recovery_stats mgr) + (if recovered then 1 else 0)
       ∧ failed_recoveries (recovery_stats mgr')
         = failed_recoveries (recovery_stats mgr)
           + (if recovered then 0 else 1))
  ∧ (∀ table calls w,
       let mgr := (handle_all calls (mkManager [] table (mkStats 0 0 0)) w).1 in
       total_errors (recovery_stats mgr)
       = resolved_errors (recovery_stats mgr)
         + failed_recoveries (recovery_stats mgr)
       ∧ total_errors (recovery_stats mgr)
         = Z.of_nat (length (error_history mgr)))
  ∧ init = mkManager [] setup_recovery_actions (mkStats 0 0 0).
Proof.
  split; [|split; [|reflexivity]].
  - intros exc cat sev ctx now mgr w.
    destruct (handle_error_effect exc cat sev ctx now mgr w) as [info H].
    exists info. destruct (handle_error _ _ _ _ _ _ _) as [[recovered mgr'] w'].
    tauto.
  - intros table calls w.
    induction calls as [|c calls IH] using rev_ind; [done|].
    rewrite handle_all_snoc. cbv zeta.
    destruct (handle_all calls _ w) as [m0 w0]. simpl in IH |- *.
    destruct (handle_error_effect (hc_exception c) (hc_category c)
                (hc_severity c) (hc_context c) (hc_now c) m0 w0) as [info H].
    destruct (handle_error _ _ _ _ _ _ _) as [[recovered m1] w1].
    destruct H as (_ & Hhist & _ & _ & Ht & Hr & Hf). simpl.
    rewrite Hhist, length_app. simpl. destruct recovered; lia.
Qed.

(** C6. When no list of actions is registered for the category,
    [handle_error] returns false and [time.sleep] is not called; the model
    has no way of raising out of [handle_error], since the loop catches
    what an action raises. The constructor registers nothing for
    CONFIGURATION, USER_INPUT and SYSTEM. *)
Theorem handle_error_unregistered_category :
  (∀ exc cat sev ctx now mgr w,
     recovery_actions mgr !! cat = None →
     ∃ mgr' w',
       handle_error exc cat sev ctx now mgr w = (false, mgr', w')
       ∧ slept w' = slept w)
  ∧ recovery_actions init !! CONFIGURATION = None
  ∧ recovery_actions init !! USER_INPUT = None
  ∧ recovery_actions init !! SYSTEM = None.
Proof.
  split; [|by vm_compute].
  intros exc cat sev ctx now mgr w Hnone. unfold handle_error.
  erewrite attempt_recovery_unregistered.
  - eexists _, _. split; [reflexivity|]. reflexivity.
  - simpl. apply handle_error_reference.
  - simpl. exact Hnone.
Qed.

Lemma handle_error_unregistered_category_witness :
  ∃ mgr' w',
    handle_error (mkExc "OSError" "disk full") SYSTEM HIGH None 0
                 init fresh_world = (false, mgr', w')
    ∧ slept w' = slept fresh_world.
Proof.
  destruct handle_error_unregistered_category as (Hgeneral & _).
  apply Hgeneral. vm_compute. reflexivity.
Defined.

(** C10. When the action of an iteration raises, the attempt counter is
    not incremented: the loop logs the failure and carries on with the next
    registered action, on a manager that is exactly as it was before the
    iteration. *)
Theorem raising_action_consumes_no_attempt :
  ∀ ra rest r mgr w info e w1,
    error_history mgr !! r = Some info →
    recovery_attempts info < max_attempts ra →
    action ra info
      (let w := log_info ("Attempting recovery: " +:+ name ra) w in
       if Qlt_le_dec 0 (delay_between_attempts ra)
       then sleep (delay_between_attempts ra) w else w)
    = (Raise e, w1) →
    recovery_loop (ra :: rest) r mgr w =
    recovery_loop rest r mgr
      (log_error ("Recovery action failed: " +:+ name ra) (Some e) w1).
Proof.
  intros ra rest r mgr w info e w1 Hinfo Hbudget Hraise.
  cbn [recovery_loop]. rewrite Hinfo.
  apply Z.leb_gt in Hbudget. rewrite Hbudget.
  cbv zeta in Hraise. by rewrite Hraise.
Qed.

(** An action that raises on a record with budget left, followed by one
    that succeeds. *)
Lemma raising_action_consumes_no_attempt_witness :
  let e := mkExc "RuntimeError" "emulator not responding" in
  let raising := mkAction "restart_game" (λ _ w, (Raise e, w)) 3
                          (inject_Z 1) None in
  let succeeding := mkAction "skip_current_action" skip_current_action 1
                             (inject_Z 1) None in
  let info := mkErrorInfo (mkExc "ValueError" "no template") MEDIUM
                          GAME_STATE ∅ 0 0 false in
  let mgr := mkManager [info] ∅ (mkStats 1 0 0) in
  recovery_loop [raising; succeeding] 0 mgr fresh_world =
  recovery_loop [succeeding] 0 mgr
    (log_error "Recovery action failed: restart_game" (Some e)
       (sleep (inject_Z 1)
          (log_info "Attempting recovery: restart_game" fresh_world))).
Proof.
  intros e raising succeeding info mgr.
  apply (raising_action_consumes_no_attempt
           raising [succeeding] 0%nat mgr fresh_world info e);
    reflexivity.
Defined.

Lemma attempts_after_ge counter budgets :
  counter ≤ attempts_after counter budgets.
Proof.
  revert counter. induction budgets as [|b budgets IH]; intros counter;
    simpl; [lia|].
  destruct (b <=? counter); [apply IH|].
  etrans; [|apply IH]. lia.
Qed.

Lemma attempts_after_le_length counter budgets :
  attempts_after counter budgets ≤ counter + Z.of_nat (length budgets).
Proof.
  revert counter. induction budgets as [|b budgets IH]; intros counter;
    simpl length; simpl attempts_after; [lia|].
  destruct (b <=? counter).
  - etrans; [apply IH|]. lia.
  - etrans; [apply IH|]. lia.
Qed.

Lemma budgets_sum_nonneg (budgets : list Z) :
  Forall (λ b, 0 ≤ b) budgets → 0 ≤ foldr Z.add 0 budgets.
Proof. induction 1 as [|b budgets Hb _ IH]; simpl; lia. Qed.

Lemma attempts_after_le_sum counter budgets :
  0 ≤ counter → Forall (λ b, 0 ≤ b) budgets →
  attempts_after counter budgets ≤ Z.max counter (foldr Z.add 0 budgets).
Proof.
  intros Hc Hb. revert counter Hc.
  induction Hb as [|b budgets Hb0 Hb IH]; intros counter Hc; simpl; [lia|].
  pose proof (budgets_sum_nonneg budgets Hb).
  destruct (b <=? counter) eqn:Hskip.
  - etrans; [apply IH; lia|]. lia.
  - apply Z.leb_gt in Hskip. etrans; [apply IH; lia|]. lia.
Qed.

(** The pass over actions that all fail: it ends unresolved and the counter
    of the record has moved as [attempts_after] says. *)
Lemma recovery_loop_all_fail actions r mgr w info :
  Forall always_fails actions →
  error_history mgr !! r = Some info →
  ∃ mgr' w',
    recovery_loop actions r mgr w = (false, mgr', w')
    ∧ error_history mgr' !! r =
      Some (set_recovery_attempts
              (attempts_after (recovery_attempts info)
                              (max_attempts <$> actions)) info).
Proof.
  intros Hfail. revert mgr w info.
  induction Hfail as [|ra rest Hra Hrest IH]; intros mgr w info Hinfo.
  - eexists _, _. split; [reflexivity|]. simpl. rewrite Hinfo.
    by destruct info.
  - cbn [recovery_loop]. rewrite Hinfo. rewrite fmap_cons. simpl.
    destruct (max_attempts ra <=? recovery_attempts info); [by apply IH|].
    match goal with
    | |- context [action ra info ?w0] =>
        destruct (Hra info w0) as [w1 ->]
    end.
    destruct (IH (bump_recovery_attempts r mgr) w1 _
                 (bump_recovery_attempts_lookup r mgr info Hinfo))
      as (mgr' & w' & Hloop & Hrec).
    exists mgr', w'. split; [exact Hloop|]. rewrite Hrec. by destruct info.
Qed.

(** C1, as the code has it. For every category with a registered list of
    actions, when every action reports failure [handle_error] terminates
    and returns false, and the attempt counter of the record is the number
    of actions that were executed: each action is executed at most once,
    and only if the counter has not reached its [max_attempts]. The counter
    therefore never exceeds the number of actions, nor the sum of the
    budgets when none of them is negative. *)
Theorem handle_error_all_actions_fail :
  ∀ exc cat sev ctx now mgr w actions,
    recovery_actions mgr !! cat = Some actions →
    Forall always_fails actions →
    ∃ mgr' w' info,
      handle_error exc cat sev ctx now mgr w = (false, mgr', w')
      ∧ last (error_history mgr') = Some info
      ∧ recovery_attempts info = attempts_after 0 (max_attempts <$> actions)
      ∧ 0 ≤ recovery_attempts info ≤ Z.of_nat (length actions)
      ∧ (Forall (λ ra, 0 ≤ max_attempts ra) actions →
         recovery_attempts info ≤ budget_sum actions).
Proof.
  intros exc cat sev ctx now mgr w actions Hacts Hfail.
  pose proof (handle_error_effect exc cat sev ctx now mgr w) as [info Heff].
  unfold handle_error in *.
  set (info0 := mkErrorInfo exc sev cat (default ∅ ctx) now 0 false) in *.
  set (mgr1 := set_recovery_stats _ (set_error_history _ mgr)) in *.
  set (w1 := log_error _ _ w) in *.
  assert (Hinfo0 : error_history mgr1 !! length (error_history mgr)
                   = Some info0) by apply handle_error_reference.
  destruct (recovery_loop_all_fail actions (length (error_history mgr))
              mgr1 w1 info0 Hfail Hinfo0) as (mgr2 & w2 & Hloop & Hrec).
  assert (Hrun : attempt_recovery (length (error_history mgr)) mgr1 w1
                 = (false, mgr2, w2)).
  { unfold attempt_recovery. rewrite Hinfo0. simpl. by rewrite Hacts. }
  rewrite Hrun in *.
  destruct Heff as (Hlookup & Hhist & _).
  simpl in Hlookup. rewrite Hrec in Hlookup.
  injection Hlookup as <-.
  eexists _, _, _. split; [reflexivity|].
  split; [by rewrite Hhist, last_snoc|].
  simpl. split; [reflexivity|].
  pose proof (attempts_after_ge 0 (max_attempts <$> actions)).
  pose proof (attempts_after_le_length 0 (max_attempts <$> actions)) as Hlen.
  rewrite length_fmap in Hlen.
  split; [lia|].
  intros Hnonneg.
  pose proof (attempts_after_le_sum 0 (max_attempts <$> actions)) as Hsum.
  unfold budget_sum.
  assert (Hbudgets : Forall (λ b, 0 ≤ b) (max_attempts <$> actions))
    by (by apply Forall_fmap).
  pose proof (budgets_sum_nonneg _ Hbudgets).
  etrans; [apply Hsum; [lia|done]|]. lia.
Qed.

Lemma failing_always_fails (l : list RecoveryAction) :
  Forall always_fails (failing <$> l).
Proof.
  apply Forall_fmap, Forall_forall. intros ra _ info w. by exists w.
Qed.

Lemma failing_manager_lookup cat :
  recovery_actions failing_manager !! cat =
  (λ l : list RecoveryAction, failing <$> l)
  <$> (setup_recovery_actions !! cat).
Proof. unfold failing_manager. simpl. apply lookup_fmap. Qed.

Lemma failing_manager_network :
  recovery_actions failing_manager !! NETWORK =
  Some (failing <$>
        [RecoveryAction_new "wait_for_network" wait_for_network
                            (Some 5) (Some (inject_Z 5));
         RecoveryAction_new "check_connection" check_connection
                            (Some 2) None]).
Proof. by rewrite failing_manager_lookup. Qed.

(** The two NETWORK actions of the constructor, made to fail: both are
    executed once and the counter ends at 2. *)
Lemma handle_error_all_actions_fail_witness :
  ∃ mgr' w' info,
    handle_error (mkExc "ConnectionError" "timed out") NETWORK MEDIUM None 0
                 failing_manager fresh_world = (false, mgr', w')
    ∧ last (error_history mgr') = Some info
    ∧ recovery_attempts info = 2.
Proof.
  destruct (handle_error_all_actions_fail
              (mkExc "ConnectionError" "timed out") NETWORK MEDIUM None 0
              failing_manager fresh_world _
              failing_manager_network (failing_always_fails _))
    as (mgr' & w' & info & Hrun & Hlast & Hcount & _).
  exists mgr', w', info. split; [exact Hrun|]. split; [exact Hlast|].
  rewrite Hcount. reflexivity.
Defined.

(** C1 fails as stated: with the two NETWORK actions of the constructor
    made to fail, the error ends unresolved with the counter at 2, while
    the budgets add up to 5 + 2 = 7. *)
Lemma handle_error_counter_is_not_budget_sum :
  (∃ actions mgr' w' info,
     recovery_actions failing_manager !! NETWORK = Some actions
     ∧ Forall always_fails actions
     ∧ handle_error (mkExc "ConnectionError" "timed out") NETWORK MEDIUM None
                    0 failing_manager fresh_world = (false, mgr', w')
     ∧ last (error_history mgr') = Some info
     ∧ recovery_attempts info = 2
     ∧ budget_sum actions = 7)
  ∧ ¬ exhausts_budget_sum.
Proof.
  split.
  - eexists _, _, _, _. split; [apply failing_manager_network|].
    split; [apply failing_always_fails|].
    split; [vm_compute; reflexivity|].
    split; [reflexivity|]. split; reflexivity.
  - intros Hclaim.
    destruct (Hclaim (mkExc "ConnectionError" "timed out") NETWORK MEDIUM
                None 0 failing_manager fresh_world _
                failing_manager_network)
      as (mgr' & w' & info & Hrun & Hlast & Hsum).
    + discriminate.
    + apply failing_always_fails.
    + vm_compute in Hrun. injection Hrun as <- <-.
      simpl in Hlast. injection Hlast as <-.
      vm_compute in Hsum. discriminate.
Qed.

End recovery_manager_properties.

(** * Properties of the decorator *)

Section decorator_properties.
Import py error_handler runs.

(** C2, as the code has it. When the wrapped function raises, the wrapper
    returns [None] if the severity is not CRITICAL, and the exception
    leaves the wrapper exactly when the severity is CRITICAL, whatever
    recovery made of the error. *)
Theorem wrapper_propagates_iff_critical :
  ∀ (A : Type) cat sev fname (func : World → Outcome A * World)
    args args_str kwargs_str now w e w1,
    func w = (Raise e, w1) →
    let '(out, _, _) :=
      wrapper cat sev fname func args args_str kwargs_str now w in
    (sev ≠ CRITICAL → out = Return None)
    ∧ (sev = CRITICAL → out = Raise e)
    ∧ (propagates out ↔ sev = CRITICAL).
Proof.
  intros A cat sev fname func args args_str kwargs_str now w e w1 Hraise.
  unfold wrapper. rewrite Hraise.
  destruct (find_recovery_manager args) as [m|].
  - destruct (handle_error _ _ _ _ _ _ _) as [[recovered m'] w'].
    case_decide; simpl; naive_solver.
  - case_decide; simpl; naive_solver.
Qed.

Lemma wrapper_propagates_iff_critical_witness :
  let e := mkExc "TimeoutError" "no answer" in
  (wrapper GAME_STATE HIGH "collect_rewards"
           (λ w, (Raise (A := unit) e, w))
           [Plain; WithRecovery (Some init)] "(bot,)" "{}" 0 fresh_world).1.1
  = Return None
  ∧ (wrapper GAME_STATE CRITICAL "collect_rewards"
             (λ w, (Raise (A := unit) e, w))
             [Plain; WithRecovery (Some init)] "(bot,)" "{}" 0 fresh_world).1.1
    = Raise e.
Proof.
  intros e. split.
  - pose proof (wrapper_propagates_iff_critical
                  unit GAME_STATE HIGH "collect_rewards"
                  (λ w, (Raise e, w)) [Plain; WithRecovery (Some init)]
                  "(bot,)" "{}" 0 fresh_world e fresh_world eq_refl) as H.
    destruct (wrapper _ _ _ _ _ _ _ _ _) as [[out m] w'].
    destruct H as (Hswallow & _). apply Hswallow. discriminate.
  - pose proof (wrapper_propagates_iff_critical
                  unit GAME_STATE CRITICAL "collect_rewards"
                  (λ w, (Raise e, w)) [Plain; WithRecovery (Some init)]
                  "(bot,)" "{}" 0 fresh_world e fresh_world eq_refl) as H.
    destruct (wrapper _ _ _ _ _ _ _ _ _) as [[out m] w'].
    destruct H as (_ & Hraise & _). apply Hraise. reflexivity.
Defined.

(** C2 fails as stated: with the manager as constructed, whose actions
    succeed, a CRITICAL failure is resolved by recovery and the wrapper
    raises it all the same. *)
Lemma wrapper_reraises_resolved_critical :
  let e := mkExc "TimeoutError" "no answer" in
  let run :=
    wrapper GAME_STATE CRITICAL "collect_rewards"
            (λ w, (Raise (A := unit) e, w))
            [Plain; WithRecovery (Some init)] "(bot,)" "{}" 0 fresh_world in
  (run.1.1 = Raise e
   ∧ (resolved <$> (run.1.2 ≫= λ m, last (error_history m))) = Some true)
  ∧ ¬ propagates_iff_unresolved_critical.
Proof.
  intros e run. split.
  - split; vm_compute; reflexivity.
  - intros Hclaim.
    specialize (Hclaim unit GAME_STATE CRITICAL "collect_rewards"
                  (λ w, (Raise e, w)) [Plain; WithRecovery (Some init)]
                  "(bot,)" "{}" 0 fresh_world e fresh_world eq_refl).
    destruct (wrapper _ _ _ _ _ _ _ _ _) as [[out m] w'] eqn:Hrun.
    vm_compute in Hrun. injection Hrun as <- <- <-.
    destruct Hclaim as (_ & Hiff).
    destruct Hiff as [Himp _]. destruct (Himp I) as [_ Hunres].
    apply Hunres. reflexivity.
Qed.

End decorator_properties.

(** * Properties of the circuit breaker *)

Section circuit_breaker_properties.
Import py error_handler runs.

Context {A W : Type}.
Implicit Types (cb : CircuitBreaker) (func : W → Outcome A * W) (w : W).

(** The check lets everything through unless the breaker is [OPEN]. *)
Lemma call_gate_not_open cb now :
  state cb ≠ OPEN → call_gate cb now = inl cb.
Proof. unfold call_gate. by destruct (state cb). Qed.

(** What the check does with an [OPEN] breaker. *)
Lemma call_gate_open cb now last :
  state cb = OPEN → last_failure_time cb = Some last →
  call_gate cb now =
  if recovery_timeout cb <? td_seconds (now - last)
  then inl (set_state HALF_OPEN cb)
  else inr circuit_open_exception.
Proof. intros Hs Hl. unfold call_gate. by rewrite Hs, Hl. Qed.

(** Less than a day after the failure, [.seconds] is the elapsed time in
    whole seconds. *)
Lemma td_seconds_same_day (d : timedelta) :
  0 ≤ d < us_per_day → td_seconds d = d / us_per_second.
Proof. intros Hd. unfold td_seconds. by rewrite Z.mod_small. Qed.

Lemma call_gate_preserves cb now cb' :
  call_gate cb now = inl cb' →
  failure_threshold cb' = failure_threshold cb
  ∧ failure_count cb' = failure_count cb
  ∧ (state cb' = state cb ∨ state cb = OPEN ∧ state cb' = HALF_OPEN).
Proof.
  unfold call_gate. intros Hgate.
  destruct (state cb) eqn:Hs; try (injection Hgate as <-; by auto).
  destruct (last_failure_time cb); [|done].
  destruct (_ <? _); [|done].
  injection Hgate as <-. simpl. auto.
Qed.

Lemma call_gate_consistent cb now cb' :
  tripped_consistent cb → call_gate cb now = inl cb' →
  tripped_consistent cb'.
Proof.
  intros Hinv Hgate. unfold tripped_consistent in *.
  destruct (call_gate_preserves _ _ _ Hgate) as (-> & -> & [->|[Ho _]]);
    [done|].
  intros _. apply Hinv. by rewrite Ho.
Qed.

Lemma call_try_consistent cb func now_failure w :
  tripped_consistent cb →
  tripped_consistent (call_try cb func now_failure w).1.2.
Proof.
  unfold tripped_consistent, call_try. intros Hinv.
  destruct (func w) as [[v|e] w1]; simpl.
  - case_decide; simpl; [done|exact Hinv].
  - destruct (failure_threshold cb <=? failure_count cb + 1) eqn:Hth; simpl.
    + intros _. by apply Z.leb_le.
    + intros Hs. specialize (Hinv Hs). apply Z.leb_gt in Hth. lia.
Qed.

Lemma call_consistent cb now func now_failure w :
  tripped_consistent cb →
  tripped_consistent (call cb now func now_failure w).1.2.
Proof.
  intros Hinv. unfold call.
  destruct (call_gate cb now) as [cb'|e] eqn:Hgate; [|exact Hinv].
  apply call_try_consistent. by eapply call_gate_consistent.
Qed.

(** An invocation through [call_try] is one invocation. *)
Lemma call_try_invokes_once cb func now_failure w n :
  (call_try cb (counted func) now_failure (w, n)).2.2 = S n.
Proof.
  unfold call_try, counted. by destruct (func w) as [[v|e] w1].
Qed.

End circuit_breaker_properties.

Section circuit_breaker_claims.
Import py error_handler runs.

Lemma reachable_consistent cb : reachable cb → tripped_consistent cb.
Proof.
  induction 1 as [threshold timeout|A W cb now func now_failure w _ IH
                 |cb now cb' _ IH Hgate].
  - by intros Hs.
  - by apply call_consistent.
  - by eapply call_gate_consistent.
Qed.

(** A failing call that is let through: the count goes up by one, and the
    breaker is [OPEN] if that reaches the threshold. *)
Lemma call_failure {A W} cb now (func : W → Outcome A * W) now_failure w
    cb1 e w1 :
  call_gate cb now = inl cb1 →
  func w = (Raise e, w1) →
  ∃ cb',
    call cb now func now_failure w = (Raise e, cb', w1)
    ∧ failure_threshold cb' = failure_threshold cb
    ∧ recovery_timeout cb' = recovery_timeout cb
    ∧ failure_count cb' = failure_count cb + 1
    ∧ state cb' = (if failure_threshold cb <=? failure_count cb + 1
                   then OPEN else state cb1).
Proof.
  intros Hgate Hraise.
  destruct (call_gate_preserves _ _ _ Hgate) as (Hth & Hcount & _).
  assert (Hto : recovery_timeout cb1 = recovery_timeout cb).
  { unfold call_gate in Hgate.
    destruct (state cb); try (by injection Hgate as <-).
    destruct (last_failure_time cb); [|done].
    destruct (_ <? _); [|done]. by injection Hgate as <-. }
  unfold call, call_try. rewrite Hgate, Hraise. simpl.
  rewrite Hth, Hcount.
  eexists. split; [reflexivity|].
  destruct (failure_threshold cb <=? failure_count cb + 1); simpl; auto.
Qed.

(** Failing calls through a [CLOSED] breaker: below the threshold it stays
    [CLOSED] and counts, the call that reaches the threshold opens it. *)
Lemma call_all_failing {A W} (calls : list (BreakerCall A W)) cb w :
  Forall (λ c, fails (bc_func c)) calls →
  state cb = CLOSED →
  failure_count cb + Z.of_nat (length calls) ≤ failure_threshold cb →
  let cb' := (call_all calls cb w).1 in
  failure_threshold cb' = failure_threshold cb
  ∧ failure_count cb' = failure_count cb + Z.of_nat (length calls)
  ∧ state cb' =
    (if decide (calls ≠ []
                ∧ failure_count cb + Z.of_nat (length calls)
                  = failure_threshold cb)
     then OPEN else CLOSED).
Proof.
  intros Hfail. revert cb w.
  induction Hfail as [|c calls Hc _ IH]; intros cb w Hclosed Hroom.
  - cbn [call_all foldl fst length]. rewrite Hclosed.
    split; [done|split; [lia|]].
    rewrite decide_False; [done|]. by intros [? _].
  - simpl in Hroom. unfold call_all in *. cbn [foldl fst snd].
    destruct (Hc w) as (e & w1 & Hraise).
    destruct (call_failure cb (bc_now c) (bc_func c) (bc_now_failure c) w
                cb e w1) as (cb1 & -> & Hth & _ & Hcount & Hstate);
      [by apply call_gate_not_open; rewrite Hclosed|done|].
    destruct (decide (calls = [])) as [->|Hmore].
    + cbn [foldl fst length]. rewrite Hth, Hcount, Hstate.
      split; [done|split; [lia|]].
      destruct (Z.leb_spec (failure_threshold cb) (failure_count cb + 1)).
      * rewrite decide_True; [done|]. split; [done|]. lia.
      * rewrite decide_False; [done|]. intros [_ ?]. lia.
    + assert (0 < Z.of_nat (length calls)).
      { destruct calls; [done|]. simpl. lia. }
      destruct (Z.leb_spec (failure_threshold cb) (failure_count cb + 1));
        [lia|].
      destruct (IH cb1 w1) as (Hth' & Hcount' & Hstate').
      { by rewrite Hstate. }
      { rewrite Hth, Hcount. lia. }
      rewrite Hth', Hcount', Hstate', Hth, Hcount.
      split; [done|split; [simpl length; lia|]].
      simpl length.
      destruct (decide (failure_count cb + Z.of_nat (S (length calls))
                        = failure_threshold cb)).
      * rewrite !decide_True; [done|split; [done|lia]|split; [done|lia]].
      * rewrite !decide_False; [done|intros [_ ?]; lia|intros [_ ?]; lia].
Qed.

(** C4. Right after a failing call whose increment brings the failure
    count to the threshold or past it, the breaker is OPEN; in particular
    a constructed breaker is OPEN after exactly [failure_threshold] failing
    calls in a row (there is at least one call, so the threshold is
    positive). *)
Theorem failure_reaching_threshold_opens :
  (∀ (A W : Type) cb now (func : W → Outcome A * W) now_failure w cb1 e w1,
     call_gate cb now = inl cb1 →
     func w = (Raise e, w1) →
     failure_threshold cb ≤ failure_count cb + 1 →
     ∃ cb',
       call cb now func now_failure w = (Raise e, cb', w1)
       ∧ failure_count cb' = failure_count cb + 1
       ∧ state cb' = OPEN)
  ∧ (∀ (A W : Type) threshold timeout (calls : list (BreakerCall A W)) w,
       0 < threshold →
       Z.of_nat (length calls) = threshold →
       Forall (λ c, fails (bc_func c)) calls →
       state (call_all calls (CircuitBreaker_init threshold timeout) w).1
       = OPEN).
Proof.
  split.
  - intros A W cb now func now_failure w cb1 e w1 Hgate Hraise Hreach.
    destruct (call_failure cb now func now_failure w cb1 e w1 Hgate Hraise)
      as (cb' & Hcall & _ & _ & Hcount & Hstate).
    exists cb'. split; [done|]. split; [done|].
    apply Z.leb_le in Hreach. by rewrite Hreach in Hstate.
  - intros A W threshold timeout calls w Hpos Hlen Hfail.
    destruct (call_all_failing calls (CircuitBreaker_init threshold timeout)
                w Hfail) as (_ & _ & Hstate); [done|simpl; lia|].
    rewrite Hstate. rewrite decide_True; [done|]. simpl. split; [|lia].
    intros ->. simpl in Hlen. lia.
Qed.

(** A breaker with threshold 3 and three failing calls; and a breaker
    whose count stands at 4 of 5 when the call fails. *)
Lemma failure_reaching_threshold_opens_witness :
  let e := mkExc "ConnectionError" "reset" in
  let c t := mkBreakerCall t (raising_op e) t in
  state (call_all [c 10; c 20; c 30] (CircuitBreaker_init 3 60) ()).1 = OPEN
  ∧ ∃ cb',
      call (mkBreaker 5 60 4 (Some 10) CLOSED) 20 (raising_op e) 20 ()
      = (Raise e, cb', ())
      ∧ failure_count cb' = 5 ∧ state cb' = OPEN.
Proof.
  intros e c.
  destruct failure_reaching_threshold_opens as (Hstep & Hrun).
  split.
  - apply Hrun; [reflexivity|reflexivity|].
    repeat constructor; intros w; by exists e, w.
  - apply (Hstep unit unit (mkBreaker 5 60 4 (Some 10) CLOSED) 20
             (raising_op e) 20 () (mkBreaker 5 60 4 (Some 10) CLOSED) e ());
      [reflexivity|reflexivity|simpl; lia].
Defined.

Lemma call_half_open {A W} cb now (func : W → Outcome A * W) now_failure w :
  state cb = HALF_OPEN →
  call cb now func now_failure w = call_try cb func now_failure w.
Proof.
  intros Hs. unfold call. rewrite call_gate_not_open; [done|].
  by rewrite Hs.
Qed.

(** C5. On a breaker in state HALF_OPEN, such as a program can have, a
    trial whose operation succeeds leaves the breaker CLOSED with the
    failure count back at 0, and a trial whose operation fails leaves it
    OPEN. *)
Theorem half_open_trial :
  ∀ (A W : Type) cb now (func : W → Outcome A * W) now_failure w,
    reachable cb →
    state cb = HALF_OPEN →
    (∀ v w1, func w = (Return v, w1) →
       ∃ cb',
         call cb now func now_failure w = (Return v, cb', w1)
         ∧ state cb' = CLOSED ∧ failure_count cb' = 0)
    ∧ (∀ e w1, func w = (Raise e, w1) →
         ∃ cb',
           call cb now func now_failure w = (Raise e, cb', w1)
           ∧ state cb' = OPEN).
Proof.
  intros A W cb now func now_failure w Hreach Hhalf.
  pose proof (reachable_consistent cb Hreach) as Hinv.
  assert (Hth : failure_threshold cb ≤ failure_count cb)
    by (apply Hinv; by rewrite Hhalf).
  split.
  - intros v w1 Hret. rewrite call_half_open by done.
    unfold call_try. rewrite Hret, decide_True by done.
    by eexists.
  - intros e w1 Hraise.
    destruct (call_failure cb now func now_failure w cb e w1)
      as (cb' & Hcall & _ & _ & _ & Hstate);
      [by apply call_gate_not_open; rewrite Hhalf|done|].
    exists cb'. split; [done|].
    rewrite Hstate.
    destruct (Z.leb_spec (failure_threshold cb) (failure_count cb + 1));
      [done|lia].
Qed.

(** The breaker of the example: constructed with threshold 2, failed twice,
    and let through by the check more than a minute later. *)
Lemma half_open_example_reachable :
  reachable (mkBreaker 2 60 2 (Some 20) HALF_OPEN).
Proof.
  set (e := mkExc "ConnectionError" "reset").
  apply (reach_gate (mkBreaker 2 60 2 (Some 20) OPEN) 100000000);
    [|reflexivity].
  change (reachable
            (call (mkBreaker 2 60 1 (Some 10) CLOSED) 20 (raising_op e)
                  20 ()).1.2).
  apply reach_call.
  change (reachable
            (call (CircuitBreaker_init 2 60) 10 (raising_op e) 10 ()).1.2).
  apply reach_call, reach_init.
Qed.

Lemma half_open_trial_witness :
  let cb := mkBreaker 2 60 2 (Some 20) HALF_OPEN in
  let e := mkExc "ConnectionError" "reset" in
  (∃ cb', call cb 100000000 (λ w : unit, (Return 7, w)) 100000000 ()
          = (Return 7, cb', ())
          ∧ state cb' = CLOSED ∧ failure_count cb' = 0)
  ∧ (∃ cb', call cb 100000000 (raising_op e) 100000000 ()
            = (Raise e, cb', ())
            ∧ state cb' = OPEN).
Proof.
  intros cb e. split.
  - destruct (half_open_trial Z unit cb 100000000
                (λ w : unit, (Return 7, w)) 100000000 ()
                half_open_example_reachable eq_refl) as (Hok & _).
    apply Hok. reflexivity.
  - destruct (half_open_trial unit unit cb 100000000
                (raising_op e) 100000000 ()
                half_open_example_reachable eq_refl) as (_ & Hfail).
    apply Hfail. reflexivity.
Defined.

(** Within a day of the last failure the check compares the elapsed whole
    seconds with the timeout: the call is rejected, breaker and world
    untouched, or goes to the [try] statement as [HALF_OPEN]. *)
Lemma call_open_same_day {A W} cb now last (func : W → Outcome A * W)
    now_failure w :
  state cb = OPEN → last_failure_time cb = Some last →
  0 ≤ now - last < us_per_day →
  call cb now func now_failure w =
  if recovery_timeout cb <? (now - last) / us_per_second
  then call_try (set_state HALF_OPEN cb) func now_failure w
  else (Raise circuit_open_exception, cb, w).
Proof.
  intros Hs Hl Hday. unfold call.
  rewrite (call_gate_open cb now last Hs Hl), td_seconds_same_day by done.
  by destruct (_ <? _).
Qed.

(** C3 does not hold of the code. A breaker with threshold 5 and a timeout
    of 60 seconds is OPEN after five failures; a call made one day and ten
    seconds after the last of them should go through as the HALF_OPEN
    trial, but it is rejected without the operation being invoked and the
    breaker stays OPEN: the check reads the [seconds] field of the elapsed
    time, which starts again from 0 every day. *)
Theorem open_breaker_rejects_a_day_later :
  let e := mkExc "ConnectionError" "reset" in
  let c := mkBreakerCall 0 (raising_op e) 0 in
  let cb := (call_all [c; c; c; c; c] (CircuitBreaker_init 5 60) ()).1 in
  let now := timedelta_of_days 1 + timedelta_of_seconds 10 in
  cb = mkBreaker 5 60 5 (Some 0) OPEN
  ∧ timedelta_of_seconds (recovery_timeout cb) < now - 0
  ∧ td_seconds (now - 0) = 10
  ∧ ∀ (A W : Type) (func : W → Outcome A * W) now_failure w n,
      call cb now (counted func) now_failure (w, n)
      = (Raise circuit_open_exception, cb, (w, n)).
Proof.
  intros e c cb now.
  assert (Hcb : cb = mkBreaker 5 60 5 (Some 0) OPEN) by reflexivity.
  rewrite Hcb. repeat split.
Qed.

End circuit_breaker_claims.

(** * Further properties of [logger.py] *)

Section logger_further.
Import py logger runs.

Lemma record_performance_counters m f d t lg :
  error_count (record_performance m f d t lg) = error_count lg
  ∧ warning_count (record_performance m f d t lg) = warning_count lg
  ∧ emitted (record_performance m f d t lg) = emitted lg.
Proof. done. Qed.

Lemma log_counters level message perf lg :
  error_count (_log level message perf lg) = error_count lg
  ∧ warning_count (_log level message perf lg) = warning_count lg
  ∧ emitted (_log level message perf lg) = emitted lg ++ [(level, message)].
Proof. unfold _log. by destruct perf. Qed.

Lemma run_op_counters lg op :
  error_count (run_op lg op)
  = error_count lg + (if is_error_op op then 1 else 0)
  ∧ warning_count (run_op lg op)
    = warning_count lg + (if is_warning_op op then 1 else 0)
  ∧ length (emitted (run_op lg op))
    = (length (emitted lg) + (if emits_record op then 1 else 0))%nat.
Proof.
  destruct op; simpl;
    unfold debug, info, warning, error, critical, log_action_start,
           log_action_end, log_screenshot, log_ai_decision, debug, info;
    rewrite ?(proj1 (log_counters _ _ _ _)),
            ?(proj1 (proj2 (log_counters _ _ _ _))),
            ?(proj2 (proj2 (log_counters _ _ _ _))), ?length_app;
    simpl; repeat split; lia.
Qed.

Lemma run_ops_snoc ops op lg :
  run_ops (ops ++ [op]) lg = run_op (run_ops ops lg) op.
Proof. unfold run_ops. by rewrite foldl_snoc. Qed.

(** X1. Over any sequence of calls of the logging methods, [error_count]
    grows by the number of calls of [error] and by nothing else ([critical]
    is not counted), [warning_count] by the number of calls of [warning],
    and each logging call hands exactly one record to the underlying
    logger. *)
Theorem log_calls_are_counted :
  ∀ (ops : list LogOp) (lg : SWGOHLogger),
    error_count (run_ops ops lg)
    = error_count lg + Z.of_nat (length (filter (λ op, is_error_op op = true) ops))
    ∧ warning_count (run_ops ops lg)
      = warning_count lg
        + Z.of_nat (length (filter (λ op, is_warning_op op = true) ops))
    ∧ length (emitted (run_ops ops lg))
      = (length (emitted lg)
         + length (filter (λ op, emits_record op = true) ops))%nat.
Proof.
  intros ops lg. induction ops as [|op ops IH] using rev_ind; [simpl; lia|].
  rewrite run_ops_snoc, !filter_app, !length_app.
  destruct (run_op_counters (run_ops ops lg) op) as (He & Hw & Hl).
  destruct IH as (IHe & IHw & IHl).
  rewrite He, Hw, Hl, IHe, IHw, IHl.
  rewrite !filter_cons, !filter_nil.
  destruct op; simpl; repeat split; lia.
Qed.

(** What a recording leaves under each key. *)
Lemma lookup_record_performance key m f d t lg :
  performance_data (record_performance m f d t lg) !! key =
  if decide (perf_key m f = key)
  then Some (last_n 100 (window key lg ++ [mkPerf t d]))
  else performance_data lg !! key.
Proof.
  unfold window, record_performance. simpl.
  set (k := perf_key m f).
  set (d1 := match performance_data lg !! k with
             | None => <[k:=[]]> (performance_data lg)
             | Some _ => performance_data lg
             end).
  assert (Hd1 : d1 !! k = Some (default [] (performance_data lg !! k))).
  { subst d1. destruct (performance_data lg !! k) eqn:E; simpl;
      [exact E|apply lookup_insert_eq]. }
  assert (Hother : ∀ k', k ≠ k' → d1 !! k' = performance_data lg !! k').
  { intros k' Hne. subst d1. destruct (performance_data lg !! k); [done|].
    by rewrite lookup_insert_ne. }
  rewrite lookup_alter_eq, Hd1. simpl.
  set (l := default [] (performance_data lg !! k) ++ [mkPerf t d]).
  case_decide as Hk.
  - subst key. destruct (100 <? length l)%nat eqn:Hlen.
    + by rewrite lookup_insert_eq.
    + rewrite lookup_alter_eq, Hd1. simpl.
      apply Nat.ltb_ge in Hlen. by rewrite last_n_short.
  - destruct (100 <? length l)%nat.
    + rewrite lookup_insert_ne, lookup_alter_ne by done. by apply Hother.
    + rewrite lookup_alter_ne by done. by apply Hother.
Qed.

Lemma record_performance_in_range m f d t lg :
  windows_in_range lg → windows_in_range (record_performance m f d t lg).
Proof.
  intros Hinv key l. rewrite lookup_record_performance.
  case_decide; [|apply Hinv].
  intros [= <-]. rewrite length_last_n, length_app. simpl. lia.
Qed.

Lemma log_in_range level message perf lg :
  windows_in_range lg → windows_in_range (_log level message perf lg).
Proof.
  intros Hinv. unfold _log. destruct perf; [|exact Hinv].
  by apply record_performance_in_range.
Qed.

Lemma run_op_in_range lg op :
  windows_in_range lg → windows_in_range (run_op lg op).
Proof.
  intros Hinv.
  destruct op; simpl;
    try (by apply log_in_range); by apply record_performance_in_range.
Qed.

(** X2. On a logger as constructed, after any sequence of logging and
    recording calls, every window in [performance_data] holds at least one
    entry and at most 100: no key is ever left with an empty list. *)
Theorem stored_windows_in_range :
  ∀ (name log_dir : string) (t0 : datetime) (ops : list LogOp)
    (key : string) (l : list PerfEntry),
    performance_data (run_ops ops (init name log_dir t0)) !! key = Some l →
    (1 ≤ length l ≤ 100)%nat.
Proof.
  intros name log_dir t0 ops.
  change (windows_in_range (run_ops ops (init name log_dir t0))).
  induction ops as [|op ops IH] using rev_ind.
  - intros key l. simpl. by rewrite lookup_empty.
  - rewrite run_ops_snoc. by apply run_op_in_range.
Qed.

Lemma stored_windows_in_range_witness :
  let ops := [OpInfo "battle done"
                     (Some (mkPerfCall "battle" "run" (3 # 2) 10));
              OpWarning "slow" None;
              OpRecord (mkPerfCall "battle" "run" (5 # 2) 20)] in
  (1 ≤ length [mkPerf 10 (3 # 2); mkPerf 20 (5 # 2)] ≤ 100)%nat.
Proof.
  intros ops.
  apply (stored_windows_in_range "swgoh_bot" "logs" 0 ops "battle.run").
  vm_compute. reflexivity.
Defined.

Lemma window_emit key level message lg :
  window key (emit level message lg) = window key lg.
Proof. done. Qed.

(** X3. A [with PerformanceTimer(logger, operation)] statement hands on
    what its body returns or raises and records exactly one duration, the
    exit reading minus the entry reading. The key it records under is made
    of the logger module's name and ["log_action_end"] when the body
    returned, ["__exit__"] when it raised: the operation's name is not part
    of it, and the window of every other key is left as the body left it.
    A body that raises adds one to [error_count]. *)
Theorem timer_records_under_logger_keys :
  ∀ (A : Type) (module_name operation : string)
    (body : SWGOHLogger → Outcome A * SWGOHLogger) (t_enter t_exit : Q)
    (now : datetime) (lg : SWGOHLogger),
    let after_body :=
      body (log_action_start module_name operation None now lg) in
    let key :=
      perf_key module_name
               (match after_body.1 with
                | Return _ => "log_action_end"
                | Raise _ => "__exit__"
                end) in
    let result := timed module_name operation body t_enter t_exit now lg in
    result.1 = after_body.1
    ∧ window key result.2
      = last_n 100 (window key after_body.2
                    ++ [mkPerf now (t_exit - t_enter)%Q])
    ∧ (∀ k, k ≠ key → window k result.2 = window k after_body.2)
    ∧ error_count result.2
      = error_count after_body.2
        + (match after_body.1 with Return _ => 0 | Raise _ => 1 end).
Proof.
  intros A module_name operation body t_enter t_exit now lg.
  unfold timed. cbv zeta.
  destruct (body _) as [[a|e] lg1]; simpl.
  - unfold log_action_end, info, _log.
    split; [done|]. split; [|split].
    + by rewrite window_record_performance, decide_True.
    + intros k Hk. by rewrite window_record_performance, decide_False.
    + simpl. lia.
  - unfold error, _log.
    split; [done|]. split; [|split].
    + by rewrite window_record_performance, decide_True.
    + intros k Hk. by rewrite window_record_performance, decide_False.
    + done.
Qed.

(** Two timed operations of different names, one that returns and one that
    raises. *)
Lemma timer_records_under_logger_keys_witness :
  let lg := init "swgoh_bot" "logs" 0 in
  let ok := timed "utils.logger" "daily_login" (λ l, (Return (), l))
                  (10 # 1) (12 # 1) 100 lg in
  let ko := timed "utils.logger" "guild_raid"
                  (λ l, (Raise (A := unit) (mkExc "ValueError" "no raid"), l))
                  (20 # 1) (25 # 1) 200 ok.2 in
  window "utils.logger.daily_login" ko.2 = []
  ∧ window "utils.logger.guild_raid" ko.2 = []
  ∧ window "utils.logger.log_action_end" ko.2 = [mkPerf 100 (2 # 1)]
  ∧ window "utils.logger.__exit__" ko.2 = [mkPerf 200 (5 # 1)].
Proof.
  intros lg ok ko.
  destruct (timer_records_under_logger_keys unit "utils.logger" "guild_raid"
              (λ l, (Raise (mkExc "ValueError" "no raid"), l))
              (20 # 1) (25 # 1) 200 ok.2) as (_ & Hkey & Hother & _).
  destruct (timer_records_under_logger_keys unit "utils.logger" "daily_login"
              (λ l, (Return (), l)) (10 # 1) (12 # 1) 100 lg)
    as (_ & Hkey' & Hother' & _).
  cbv zeta beta in Hkey, Hother, Hkey', Hother'.
  cbn [fst snd] in Hkey, Hother, Hkey', Hother'.
  split; [|split; [|split]].
  - etrans; [apply Hother; discriminate|].
    etrans; [apply Hother'; discriminate|]. reflexivity.
  - etrans; [apply Hother; discriminate|].
    etrans; [apply Hother'; discriminate|]. reflexivity.
  - etrans; [apply Hother; discriminate|].
    etrans; [exact Hkey'|]. reflexivity.
  - etrans; [exact Hkey|]. reflexivity.
Defined.



(** The loop on a listing without repetitions, the directory agreeing on
    the listed names with the one the listing was taken from. *)
Lemma cleanup_loop_log listing cutoff fs0 fs lg :
  NoDup listing →
  (∀ n, n ∈ listing → fs !! n = fs0 !! n) →
  let lg' := (cleanup_loop listing cutoff fs lg).2 in
  emitted lg'
  = emitted lg
    ++ ((λ n, (INFO, "Cleaned up old log file: " +:+ n))
        <$> filter (λ n, is_doomed cutoff fs0 n = true) listing)
  ∧ error_count lg' = error_count lg
  ∧ warning_count lg' = warning_count lg
  ∧ performance_data lg' = performance_data lg.
Proof.
  intros Hnodup. revert fs lg.
  induction Hnodup as [|n listing Hn Hnodup IH]; intros fs lg Hagree.
  - simpl. by rewrite app_nil_r.
  - cbn [cleanup_loop]. rewrite filter_cons.
    assert (Hn0 : fs0 !! n = fs !! n).
    { symmetry. apply Hagree, elem_of_cons. by left. }
    assert (Hrest : ∀ m, m ∈ listing → fs !! m = fs0 !! m).
    { intros m Hm. apply Hagree, elem_of_cons. by right. }
    destruct (fs !! n) as [f|] eqn:Hf.
    2: { rewrite decide_False; [by apply IH|].
         unfold is_doomed. by rewrite Hn0. }
    destruct (is_file f) eqn:Hfile.
    2: { rewrite decide_False; [by apply IH|].
         unfold is_doomed. by rewrite Hn0, Hfile. }
    destruct (mtime f <? cutoff) eqn:Hold.
    2: { rewrite decide_False; [by apply IH|].
         unfold is_doomed. by rewrite Hn0, Hfile, Hold. }
    rewrite decide_True by (unfold is_doomed; by rewrite Hn0, Hfile, Hold).
    destruct (IH (delete n fs)
                 (info ("Cleaned up old log file: " +:+ n) None lg))
      as (He & Herr & Hwarn & Hperf).
    { intros m Hm. rewrite lookup_delete_ne; [by apply Hrest|].
      intros ->. contradiction. }
    cbv zeta in *. rewrite He, Herr, Hwarn, Hperf. simpl.
    by rewrite <- app_assoc.
Qed.





End logger_further.

(** * Further properties of the recovery manager *)

Section recovery_manager_further.
Import py error_handler runs.

Lemma largest_budget_nonneg actions : 0 ≤ largest_budget actions.
Proof.
  unfold largest_budget.
  induction actions as [|ra l IH]; [done|]. rewrite fmap_cons. simpl. lia.
Qed.

(** One pass over any actions, whatever they do: the counter of the record
    moves up by at most one per action and never past the largest
    budget. *)
Lemma recovery_loop_counter actions r mgr w info :
  error_history mgr !! r = Some info →
  ∃ c,
    error_history (recovery_loop actions r mgr w).1.2 !! r
    = Some (set_recovery_attempts c info)
    ∧ recovery_attempts info ≤ c
    ∧ c ≤ recovery_attempts info + Z.of_nat (length actions)
    ∧ c ≤ Z.max (recovery_attempts info) (largest_budget actions).
Proof.
  revert mgr w info.
  induction actions as [|ra rest IH]; intros mgr w info Hinfo.
  - exists (recovery_attempts info). simpl. rewrite Hinfo.
    split; [by destruct info|]. unfold largest_budget. simpl. lia.
  - cbn [recovery_loop]. rewrite Hinfo.
    unfold largest_budget in *. rewrite fmap_cons. simpl foldr.
    simpl length.
    destruct (Z.leb_spec (max_attempts ra) (recovery_attempts info)).
    { destruct (IH mgr w info Hinfo) as (c & Hc & ? & ? & ?).
      exists c. split; [done|]. lia. }
    destruct (action ra info _) as [[success|e] w1].
    + pose proof (bump_recovery_attempts_lookup r mgr info Hinfo) as Hbump.
      destruct success.
      * exists (recovery_attempts info + 1). simpl.
        split; [by rewrite list_lookup_alter_eq, Hinfo|]. lia.
      * destruct (IH (bump_recovery_attempts r mgr) w1 _ Hbump)
          as (c & Hc & ? & ? & ?).
        exists c. simpl in *. split; [by rewrite Hc|]. lia.
    + destruct (IH mgr (log_error ("Recovery action failed: " +:+ name ra)
                                  (Some e) w1) info Hinfo)
        as (c & Hc & ? & ? & ?).
      exists c. split; [done|]. lia.
Qed.

(** The record [handle_error] leaves at the end of the history. *)
Lemma handle_error_record exc cat sev ctx now mgr w :
  ∃ c,
    let '(recovered, mgr', _) := handle_error exc cat sev ctx now mgr w in
    last (error_history mgr')
    = Some (set_resolved recovered
              (set_recovery_attempts c (new_record exc cat sev ctx now)))
    ∧ 0 ≤ c
    ∧ c ≤ Z.of_nat (length (default [] (recovery_actions mgr !! cat)))
    ∧ c ≤ largest_budget (default [] (recovery_actions mgr !! cat)).
Proof.
  pose proof (handle_error_effect exc cat sev ctx now mgr w) as [info Heff].
  unfold handle_error in *. fold (new_record exc cat sev ctx now) in *.
  set (info0 := new_record exc cat sev ctx now) in *.
  set (mgr1 := set_recovery_stats _ (set_error_history _ mgr)) in *.
  set (w1 := log_error _ _ w) in *.
  set (r := length (error_history mgr)) in *.
  assert (Hinfo0 : error_history mgr1 !! r = Some info0)
    by apply handle_error_reference.
  assert (Hrun : ∃ c,
             error_history (attempt_recovery r mgr1 w1).1.2 !! r
             = Some (set_recovery_attempts c info0)
             ∧ 0 ≤ c
             ∧ c ≤ Z.of_nat (length (default [] (recovery_actions mgr !! cat)))
             ∧ c ≤ largest_budget (default [] (recovery_actions mgr !! cat))).
  { unfold attempt_recovery. rewrite Hinfo0. simpl category.
    change (recovery_actions mgr1) with (recovery_actions mgr).
    destruct (recovery_actions mgr !! cat) as [actions|]; simpl.
    - destruct (recovery_loop_counter actions r mgr1 w1 info0 Hinfo0)
        as (c & Hc & ? & ? & ?).
      exists c. simpl in *. split; [done|].
      pose proof (largest_budget_nonneg actions). lia.
    - exists 0. split; [exact Hinfo0|].
      unfold largest_budget. simpl. lia. }
  destruct Hrun as (c & Hc & Hbounds).
  exists c.
  destruct (attempt_recovery r mgr1 w1) as [[recovered mgr2] w2].
  simpl in Hc.
  destruct recovered; destruct Heff as (Hlookup & Hhist & _).
  - rewrite Hhist, last_snoc. split; [|exact Hbounds].
    simpl in Hlookup. rewrite list_lookup_alter_eq, Hc in Hlookup.
    simpl in Hlookup. by injection Hlookup as <-.
  - rewrite Hhist, last_snoc. split; [|exact Hbounds].
    simpl in Hlookup. rewrite Hc in Hlookup. by injection Hlookup as <-.
Qed.

(** X7. The record [handle_error] appends carries the exception, the
    category, the severity and the clock reading of the call and the given
    context (an empty one when none is given), and it is marked resolved
    exactly when [handle_error] returns true. *)
Theorem handle_error_records_the_error :
  ∀ exc cat sev ctx now mgr w,
    ∃ info,
      let '(recovered, mgr', _) := handle_error exc cat sev ctx now mgr w in
      last (error_history mgr') = Some info
      ∧ exception info = exc
      ∧ category info = cat
      ∧ severity info = sev
      ∧ context info = default ∅ ctx
      ∧ timestamp info = now
      ∧ resolved info = recovered.
Proof.
  intros exc cat sev ctx now mgr w.
  destruct (handle_error_record exc cat sev ctx now mgr w) as [c H].
  destruct (handle_error _ _ _ _ _ _ _) as [[recovered mgr'] w'].
  destruct H as (Hlast & _). eexists. split; [exact Hlast|]. done.
Qed.

(** X8. Whatever the registered actions do (succeed, fail or raise), the
    attempt counter of the record after [handle_error] is at least 0, at
    most the number of actions registered for the category and at most the
    largest [max_attempts] among them; it is 0 when nothing is
    registered. *)
Theorem recovery_attempts_bounded :
  ∀ exc cat sev ctx now mgr w,
    ∃ info,
      let '(_, mgr', _) := handle_error exc cat sev ctx now mgr w in
      let actions := default [] (recovery_actions mgr !! cat) in
      last (error_history mgr') = Some info
      ∧ 0 ≤ recovery_attempts info
      ∧ recovery_attempts info ≤ Z.of_nat (length actions)
      ∧ recovery_attempts info ≤ largest_budget actions.
Proof.
  intros exc cat sev ctx now mgr w.
  destruct (handle_error_record exc cat sev ctx now mgr w) as [c H].
  destruct (handle_error _ _ _ _ _ _ _) as [[recovered mgr'] w'].
  destruct H as (Hlast & Hbounds). eexists. split; [exact Hlast|].
  exact Hbounds.
Qed.

(** First success wins: an action with budget left that reports success
    ends the pass, and the actions after it are not executed. *)
Lemma recovery_loop_first_succeeds ra rest r mgr w info w1 :
  error_history mgr !! r = Some info →
  recovery_attempts info < max_attempts ra →
  action ra info
    (let w := log_info ("Attempting recovery: " +:+ name ra) w in
     if Qlt_le_dec 0 (delay_between_attempts ra)
     then sleep (delay_between_attempts ra) w else w)
  = (Return true, w1) →
  recovery_loop (ra :: rest) r mgr w = (true, bump_recovery_attempts r mgr, w1).
Proof.
  intros Hinfo Hbudget Hrun. cbn [recovery_loop]. rewrite Hinfo.
  apply Z.leb_gt in Hbudget. rewrite Hbudget.
  cbv zeta in Hrun. by rewrite Hrun.
Qed.

(** The head of each list the constructor registers: it has budget for a
    new record and reports success. *)
Lemma setup_recovery_actions_head cat :
  registered cat = true →
  ∃ ra rest,
    setup_recovery_actions !! cat = Some (ra :: rest)
    ∧ 0 < max_attempts ra
    ∧ ∀ info w, recovery_attempts info = 0 →
        ∃ w1,
          action ra info
            (let w := log_info ("Attempting recovery: " +:+ name ra) w in
             if Qlt_le_dec 0 (delay_between_attempts ra)
             then sleep (delay_between_attempts ra) w else w)
          = (Return true, w1)
          ∧ slept w1 = slept w ++ sleeps_of cat.
Proof.
  destruct cat; try discriminate; intros _;
    (eexists _, _; split; [reflexivity|]; split; [done|];
     intros info w Hzero; eexists; split; [reflexivity|]);
    simpl; rewrite ?Hzero, <- ?app_assoc; reflexivity.
Qed.

Lemma setup_recovery_actions_unregistered cat :
  registered cat = false → setup_recovery_actions !! cat = None.
Proof. by destruct cat. Qed.

(** X9. With the table of actions the constructor installs, [handle_error]
    returns true exactly for the five categories that have a list, and it
    does so by the first action of the list alone: the record ends with one
    attempt, the later actions of the list are never executed, and
    [time.sleep] is called with 2 and 0 (SCREEN_RECOGNITION), 5 and 5
    (NETWORK) or 1 (GAME_STATE, RESOURCE, AI_DECISION) seconds. For
    CONFIGURATION, USER_INPUT and SYSTEM it returns false with no attempt
    and no sleep. *)
Theorem constructed_table_resolves_by_first_action :
  ∀ exc cat sev ctx now mgr w,
    recovery_actions mgr = setup_recovery_actions →
    ∃ mgr' w' info,
      handle_error exc cat sev ctx now mgr w = (registered cat, mgr', w')
      ∧ last (error_history mgr') = Some info
      ∧ recovery_attempts info = (if registered cat then 1 else 0)
      ∧ slept w' = slept w ++ sleeps_of cat.
Proof.
  intros exc cat sev ctx now mgr w Htable.
  pose proof (handle_error_effect exc cat sev ctx now mgr w) as [info Heff].
  unfold handle_error in *. fold (new_record exc cat sev ctx now) in *.
  set (info0 := new_record exc cat sev ctx now) in *.
  set (mgr1 := set_recovery_stats _ (set_error_history _ mgr)) in *.
  set (w1 := log_error _ _ w) in *.
  set (r := length (error_history mgr)) in *.
  assert (Hinfo0 : error_history mgr1 !! r = Some info0)
    by apply handle_error_reference.
  destruct (registered cat) eqn:Hreg.
  - destruct (setup_recovery_actions_head cat Hreg)
      as (ra & rest & Hlist & Hbudget & Hact).
    destruct (Hact info0 w1 eq_refl) as (w2 & Hrun & Hslept).
    assert (Hrec : attempt_recovery r mgr1 w1
                   = (true, bump_recovery_attempts r mgr1, w2)).
    { unfold attempt_recovery. rewrite Hinfo0. simpl category.
      change (recovery_actions mgr1) with (recovery_actions mgr).
      rewrite Htable, Hlist.
      by apply (recovery_loop_first_succeeds ra rest r mgr1 w1 info0 w2). }
    rewrite Hrec in *. destruct Heff as (Hlookup & Hhist & _).
    eexists _, _, info. split; [reflexivity|].
    split; [by rewrite Hhist, last_snoc|].
    split; [|simpl; rewrite Hslept; reflexivity].
    simpl in Hlookup. rewrite !list_lookup_alter_eq in Hlookup.
    fold r in Hlookup. change (error_history mgr ++ [info0])
                         with (error_history mgr1) in Hlookup.
    rewrite Hinfo0 in Hlookup. simpl in Hlookup. by injection Hlookup as <-.
  - assert (Hrec : attempt_recovery r mgr1 w1
                   = (false, mgr1,
                      log_warning ("No recovery actions for category: "
                                   +:+ category_value cat) w1)).
    { apply (attempt_recovery_unregistered r mgr1 w1 info0 Hinfo0).
      change (recovery_actions mgr1) with (recovery_actions mgr).
      rewrite Htable. by apply setup_recovery_actions_unregistered. }
    rewrite Hrec in *. destruct Heff as (Hlookup & Hhist & _).
    eexists _, _, info. split; [reflexivity|].
    split; [by rewrite Hhist, last_snoc|].
    split.
    + simpl in Hlookup. fold r in Hlookup.
      change (error_history mgr ++ [info0])
        with (error_history mgr1) in Hlookup.
      rewrite Hinfo0 in Hlookup. by injection Hlookup as <-.
    + destruct cat; try discriminate; simpl; by rewrite app_nil_r.
Qed.

Lemma constructed_table_resolves_by_first_action_witness :
  ∃ mgr' w' info,
    handle_error (mkExc "ValueError" "no template") SCREEN_RECOGNITION
                 MEDIUM None 0 init fresh_world = (true, mgr', w')
    ∧ last (error_history mgr') = Some info
    ∧ recovery_attempts info = 1
    ∧ slept w' = [inject_Z 2; inject_Z 0].
Proof.
  apply (constructed_table_resolves_by_first_action
           (mkExc "ValueError" "no template") SCREEN_RECOGNITION MEDIUM None
           0 init fresh_world).
  reflexivity.
Defined.

Lemma recovery_loop_quiet actions r mgr w :
  Forall quiet actions →
  logger.error_count (the_logger (recovery_loop actions r mgr w).2)
  = logger.error_count (the_logger w).
Proof.
  intros Hquiet. revert mgr w.
  induction Hquiet as [|ra rest Hra _ IH]; intros mgr w; [done|].
  cbn [recovery_loop].
  destruct (error_history mgr !! r) as [info|]; [|done].
  destruct (max_attempts ra <=? recovery_attempts info); [apply IH|].
  match goal with
  | |- context [action ra info ?w0] =>
      destruct (Hra info w0) as (b & w1 & -> & Herr);
      assert (Hw0 : logger.error_count (the_logger w0)
                    = logger.error_count (the_logger w))
        by (by destruct (Qlt_le_dec _ _))
  end.
  destruct b; [simpl; congruence|].
  rewrite IH. congruence.
Qed.

Lemma handle_error_quiet exc cat sev ctx now mgr w :
  quiet_manager mgr →
  let '(recovered, _, w') := handle_error exc cat sev ctx now mgr w in
  logger.error_count (the_logger w')
  = logger.error_count (the_logger w) + (if recovered then 1 else 2).
Proof.
  intros Hquiet. unfold handle_error.
  fold (new_record exc cat sev ctx now).
  set (info0 := new_record exc cat sev ctx now).
  set (mgr1 := set_recovery_stats _ (set_error_history _ mgr)).
  set (w1 := log_error _ _ w).
  set (r := length (error_history mgr)).
  assert (Hinfo0 : error_history mgr1 !! r = Some info0)
    by apply handle_error_reference.
  assert (Hrun : logger.error_count
                   (the_logger (attempt_recovery r mgr1 w1).2)
                 = logger.error_count (the_logger w) + 1).
  { unfold attempt_recovery. rewrite Hinfo0. simpl category.
    change (recovery_actions mgr1) with (recovery_actions mgr).
    destruct (recovery_actions mgr !! cat) as [actions|] eqn:Hacts; [|done].
    rewrite recovery_loop_quiet; [done|]. by eapply Hquiet. }
  destruct (attempt_recovery r mgr1 w1) as [[recovered mgr2] w2].
  simpl in Hrun. destruct recovered; simpl; lia.
Qed.

Lemma handle_all_snoc_actions calls mgr w :
  recovery_actions (handle_all calls mgr w).1 = recovery_actions mgr.
Proof.
  induction calls as [|c calls IH] using rev_ind; [done|].
  rewrite handle_all_snoc. cbv zeta.
  destruct (handle_all calls mgr w) as [m0 w0]. simpl in IH |- *.
  destruct (handle_error_effect (hc_exception c) (hc_category c)
              (hc_severity c) (hc_context c) (hc_now c) m0 w0) as [info H].
  destruct (handle_error _ _ _ _ _ _ _) as [[recovered m1] w1].
  destruct H as (_ & _ & _ & Hacts & _). simpl. congruence.
Qed.

(** X10. When the registered actions neither raise nor log errors (as the
    ones the constructor installs), every call of [handle_error] adds one
    to the logger's [error_count] if the error is resolved and two if it
    is not; so over any sequence of calls [error_count] grows by the
    growth of [total_errors] plus the growth of [failed_recoveries]: an
    unresolved error is counted twice. *)
Theorem unresolved_errors_are_logged_twice :
  ∀ (calls : list HandleCall) (mgr : ErrorRecoveryManager) (w : World),
    quiet_manager mgr →
    let result := handle_all calls mgr w in
    logger.error_count (the_logger result.2)
    - logger.error_count (the_logger w)
    = (total_errors (recovery_stats result.1)
       - total_errors (recovery_stats mgr))
      + (failed_recoveries (recovery_stats result.1)
         - failed_recoveries (recovery_stats mgr)).
Proof.
  intros calls mgr w Hquiet.
  induction calls as [|c calls IH] using rev_ind; [simpl; lia|].
  pose proof (handle_all_snoc_actions calls mgr w) as Hacts.
  rewrite handle_all_snoc. cbv zeta in *.
  destruct (handle_all calls mgr w) as [m0 w0]. simpl in IH, Hacts |- *.
  assert (Hquiet0 : quiet_manager m0).
  { intros cat actions. rewrite Hacts. apply Hquiet. }
  pose proof (handle_error_quiet (hc_exception c) (hc_category c)
                (hc_severity c) (hc_context c) (hc_now c) m0 w0 Hquiet0)
    as Herr.
  destruct (handle_error_effect (hc_exception c) (hc_category c)
              (hc_severity c) (hc_context c) (hc_now c) m0 w0) as [info H].
  destruct (handle_error _ _ _ _ _ _ _) as [[recovered m1] w1].
  destruct H as (_ & _ & _ & _ & Ht & _ & Hf). simpl.
  destruct recovered; lia.
Qed.

Lemma constructed_manager_quiet : quiet_manager init.
Proof.
  intros cat actions Hacts. change (recovery_actions init)
    with setup_recovery_actions in Hacts.
  destruct cat; vm_compute in Hacts; try discriminate;
    injection Hacts as <-;
    repeat constructor; intros info w; eexists _, _; split; reflexivity.
Qed.

(** A resolved NETWORK error and an unresolved SYSTEM error: three error
    records in the log for two errors. *)
Lemma unresolved_errors_are_logged_twice_witness :
  let calls := [mkHandleCall (mkExc "ConnectionError" "reset") NETWORK
                             MEDIUM None 10;
                mkHandleCall (mkExc "OSError" "disk full") SYSTEM HIGH
                             None 20] in
  let result := handle_all calls init fresh_world in
  logger.error_count (the_logger result.2)
  - logger.error_count (the_logger fresh_world)
  = (total_errors (recovery_stats result.1)
     - total_errors (recovery_stats init))
    + (failed_recoveries (recovery_stats result.1)
       - failed_recoveries (recovery_stats init)).
Proof.
  intros calls result.
  apply (unresolved_errors_are_logged_twice calls init fresh_world).
  exact constructed_manager_quiet.
Defined.

Lemma category_value_inj c1 c2 :
  category_value c1 = category_value c2 → c1 = c2.
Proof. destruct c1, c2; simpl; intros H; first [reflexivity|discriminate]. Qed.

Lemma count_category_lookup (d : gmap string Z) e (k : string) :
  count_category d e !! k =
  if decide (category_value (category e) = k)
  then Some (default 0 (d !! k) + 1)
  else d !! k.
Proof.
  unfold count_category. case_decide as Hk.
  - subst k. rewrite lookup_alter_eq.
    destruct (d !! category_value (category e)) as [n|] eqn:Hd; simpl.
    + by rewrite Hd.
    + by rewrite lookup_insert_eq.
  - rewrite lookup_alter_ne by done.
    destruct (d !! category_value (category e)); [done|].
    by rewrite lookup_insert_ne.
Qed.

Lemma count_categories_lookup (h : list ErrorInfo) (d : gmap string Z)
    (k : string) :
  foldl count_category d h !! k =
  let n := length (filter (λ e, category_value (category e) = k) h) in
  if decide (n = 0%nat) then d !! k
  else Some (default 0 (d !! k) + Z.of_nat n).
Proof.
  revert d. induction h as [|e h IH]; intros d; [done|].
  cbn [foldl]. rewrite IH, count_category_lookup, filter_cons. cbv zeta.
  destruct (decide (category_value (category e) = k)) as [Hk|Hk].
  - simpl length. rewrite (decide_False (P := S _ = 0%nat)) by done.
    case_decide as Hn; [rewrite Hn|]; simpl; f_equal; lia.
  - done.
Qed.

Lemma filter_by_category_value cat (h : list ErrorInfo) :
  filter (λ e, category_value (category e) = category_value cat) h
  = filter (λ e, category e = cat) h.
Proof.
  apply list_filter_iff. intros e. split; [apply category_value_inj|].
  by intros ->.
Qed.

(** X11. In the summary, [errors_by_category] has an entry for a category
    exactly when the history holds a record of it, with the number of such
    records as value (never a zero entry), all its keys are category
    names, and [recent_errors] is at most the length of the history. *)
Theorem error_summary_counts_by_category :
  ∀ (now_at : nat → datetime) (mgr : ErrorRecoveryManager),
    let summary := get_error_summary now_at mgr in
    (∀ cat,
       s_errors_by_category summary !! category_value cat
       = if decide (records_of cat (error_history mgr) = 0%nat) then None
         else Some (Z.of_nat (records_of cat (error_history mgr))))
    ∧ (∀ k, is_Some (s_errors_by_category summary !! k) →
            ∃ cat, k = category_value cat
                   ∧ (0 < records_of cat (error_history mgr))%nat)
    ∧ (s_recent_errors summary ≤ length (error_history mgr))%nat.
Proof.
  intros now_at mgr summary. subst summary. unfold get_error_summary. simpl.
  split; [|split].
  - intros cat. rewrite count_categories_lookup. cbv zeta.
    rewrite filter_by_category_value. fold (records_of cat (error_history mgr)).
    case_decide; [done|]. by rewrite lookup_empty.
  - intros k. rewrite count_categories_lookup. cbv zeta.
    case_decide as Hn; [rewrite lookup_empty; by intros [? ?]|].
    intros _.
    destruct (filter (λ e, category_value (category e) = k)
                     (error_history mgr)) as [|e l] eqn:Hfilter; [done|].
    assert (He : e ∈ filter (λ e, category_value (category e) = k)
                            (error_history mgr))
      by (rewrite Hfilter; apply elem_of_cons; by left).
    apply list_elem_of_filter in He as [Hk He].
    exists (category e). split; [done|].
    unfold records_of.
    assert (Hin : e ∈ filter (λ e', category e' = category e)
                             (error_history mgr))
      by (by apply list_elem_of_filter).
    destruct (filter (λ e', category e' = category e) (error_history mgr));
      [by apply elem_of_nil in Hin|simpl; lia].
  - etrans; [apply length_filter|]. by rewrite length_imap.
Qed.

Lemma error_summary_counts_by_category_witness :
  let mgr := (handle_all
                [mkHandleCall (mkExc "ConnectionError" "reset") NETWORK
                              MEDIUM None 10;
                 mkHandleCall (mkExc "OSError" "disk full") SYSTEM HIGH
                              None 20;
                 mkHandleCall (mkExc "ConnectionError" "reset") NETWORK
                              MEDIUM None 30]
                init fresh_world).1 in
  ∃ cat, "network" = category_value cat
         ∧ (0 < records_of cat (error_history mgr))%nat.
Proof.
  intros mgr.
  destruct (error_summary_counts_by_category (λ _, 40) mgr)
    as (_ & Hkeys & _).
  apply Hkeys. vm_compute. by eexists.
Defined.

End recovery_manager_further.

(** * Further properties of the decorator *)

Section decorator_further.
Import py error_handler runs.

Lemma length_substring_0 (n : nat) (s : string) :
  String.length (String.substring 0 n s) = (n `min` String.length s)%nat.
Proof.
  revert s. induction n as [|n IH]; intros [|c s]; simpl; try done.
  by rewrite IH.
Qed.

(** X12. When the wrapped function raises and one of its arguments has a
    recovery manager, that manager's history grows by exactly one record:
    it carries the raised exception and the category and severity given to
    the decorator, and its context holds the function's name and the
    printed arguments and keyword arguments cut to their first 200
    characters. Without such an argument the only trace is one message to
    the root logger, and nothing sleeps. *)
Theorem wrapper_hands_the_error_to_the_manager :
  ∀ (A : Type) cat sev fname (func : World → Outcome A * World)
    args args_str kwargs_str now w e w1,
    func w = (Raise e, w1) →
    (∀ m, find_recovery_manager args = Some m →
       ∃ out m' w' info,
         wrapper cat sev fname func args args_str kwargs_str now w
         = (out, Some m', w')
         ∧ error_history m' = error_history m ++ [info]
         ∧ exception info = e ∧ category info = cat ∧ severity info = sev
         ∧ context info !! "function" = Some fname
         ∧ context info !! "args" = Some (String.substring 0 200 args_str)
         ∧ context info !! "kwargs"
           = Some (String.substring 0 200 kwargs_str)
         ∧ (String.length (String.substring 0 200 args_str) ≤ 200)%nat
         ∧ (String.length (String.substring 0 200 kwargs_str) ≤ 200)%nat)
    ∧ (find_recovery_manager args = None →
       ∃ out,
         wrapper cat sev fname func args args_str kwargs_str now w
         = (out, None,
            logging_error ("Unhandled error in " +:+ fname +:+ ": "
                           +:+ exc_str e) w1)).
Proof.
  intros A cat sev fname func args args_str kwargs_str now w e w1 Hraise.
  unfold wrapper. rewrite Hraise. split.
  - intros m ->.
    set (ctx := <["function":=fname]> _).
    pose proof (handle_error_effect e cat sev (Some ctx) now m w1)
      as [info Heff].
    pose proof (handle_error_record e cat sev (Some ctx) now m w1)
      as [c Hrec].
    destruct (handle_error e cat sev (Some ctx) now m w1)
      as [[recovered m'] w'].
    destruct Heff as (_ & Hhist & _). destruct Hrec as (Hlast & _).
    rewrite Hhist, last_snoc in Hlast. injection Hlast as ->.
    assert (Hout : ∃ out,
               (if decide (sev = CRITICAL)
                then (Raise e, Some m', w')
                else (Return None, Some m', w'))
               = (out : Outcome (option A), Some m', w'))
      by (case_decide; by eexists).
    destruct Hout as [out ->].
    eexists out, m', w', _. split; [reflexivity|].
    split; [exact Hhist|]. simpl.
    rewrite !length_substring_0. repeat split; lia.
  - intros ->. case_decide; by eexists.
Qed.

Lemma wrapper_hands_the_error_to_the_manager_witness :
  let e := mkExc "TimeoutError" "no answer" in
  ∃ out m' w' info,
    wrapper GAME_STATE HIGH "collect_rewards"
            (λ w, (Raise (A := unit) e, w))
            [Plain; WithRecovery (Some init)] "(bot,)" "{}" 0 fresh_world
    = (out, Some m', w')
    ∧ error_history m' = error_history init ++ [info]
    ∧ exception info = e ∧ category info = GAME_STATE
    ∧ severity info = HIGH
    ∧ context info !! "function" = Some "collect_rewards".
Proof.
  intros e.
  destruct (wrapper_hands_the_error_to_the_manager
              unit GAME_STATE HIGH "collect_rewards"
              (λ w, (Raise e, w)) [Plain; WithRecovery (Some init)]
              "(bot,)" "{}" 0 fresh_world e fresh_world eq_refl)
    as (Hmgr & _).
  destruct (Hmgr init eq_refl)
    as (out & m' & w' & info & Hrun & Hhist & He & Hc & Hs & Hf & _).
  by exists out, m', w', info.
Defined.

End decorator_further.

(** * Further properties of the circuit breaker *)

Section circuit_breaker_further.
Import py error_handler runs.

Lemma call_all_snoc {A W} (calls : list (BreakerCall A W)) c cb w :
  call_all (calls ++ [c]) cb w =
  let st := call_all calls cb w in
  let '(_, cb', w') :=
    call st.1 (bc_now c) (bc_func c) (bc_now_failure c) st.2 in
  (cb', w').
Proof. unfold call_all. by rewrite foldl_snoc. Qed.

(** A call that returns, through a [CLOSED] breaker: the breaker is as it
    was, failure count included. *)
Lemma call_success_closed {A W} cb now (func : W → Outcome A * W)
    now_failure w v w1 :
  state cb = CLOSED → func w = (Return v, w1) →
  call cb now func now_failure w = (Return v, cb, w1).
Proof.
  intros Hs Hret. unfold call.
  rewrite call_gate_not_open by (by rewrite Hs).
  unfold call_try. rewrite Hret, decide_False; [done|]. by rewrite Hs.
Qed.

(** X13. While the breaker is CLOSED a call that returns does not reset
    the failure count: over any mix of returning and raising calls that
    keeps the count below the threshold, the breaker stays CLOSED and the
    count is the number of raising calls so far, and one more raising call
    that reaches the threshold opens it. The failures need not be
    consecutive. *)
Theorem failures_accumulate_across_successes :
  ∀ (A W : Type) (calls : list (bool * BreakerCall A W))
    (final : BreakerCall A W) (cb : CircuitBreaker) (w : W),
    Forall behaves calls →
    state cb = CLOSED →
    let k := Z.of_nat (length (filter (λ bc, bc.1 = true) calls)) in
    failure_count cb + k < failure_threshold cb →
    let before := call_all calls.*2 cb w in
    (state before.1 = CLOSED
     ∧ failure_count before.1 = failure_count cb + k
     ∧ failure_threshold before.1 = failure_threshold cb)
    ∧ (fails (bc_func final) →
       failure_count cb + k + 1 = failure_threshold cb →
       state (call_all (calls.*2 ++ [final]) cb w).1 = OPEN).
Proof.
  intros A W calls final cb w Hbehave Hclosed k Hroom before.
  assert (Hbefore : state before.1 = CLOSED
                    ∧ failure_count before.1 = failure_count cb + k
                    ∧ failure_threshold before.1 = failure_threshold cb).
  { subst before k. clear final.
    induction calls as [|[b c] calls IH] using rev_ind;
      [simpl; split; [done|split; [lia|done]]|].
    apply Forall_app in Hbehave as [Hcalls Hc].
    apply Forall_cons in Hc as [Hc _].
    rewrite filter_app, length_app in Hroom |- *.
    rewrite fmap_app. simpl ([(b, c)].*2). rewrite call_all_snoc. cbv zeta.
    rewrite filter_cons, filter_nil in Hroom |- *.
    simpl fst in Hroom |- *.
    destruct (IH Hcalls) as (Hs & Hcount & Hth).
    { destruct b; simpl in Hroom; simpl; lia. }
    destruct (call_all calls.*2 cb w) as [cb0 w0]. simpl in Hs, Hcount, Hth.
    simpl fst. simpl snd. unfold behaves in Hc. simpl in Hc.
    destruct b.
    - destruct (Hc w0) as (e & w1 & Hraise).
      destruct (call_failure cb0 (bc_now c) (bc_func c) (bc_now_failure c)
                  w0 cb0 e w1) as (cb1 & -> & Hth1 & _ & Hcount1 & Hstate1);
        [by apply call_gate_not_open; rewrite Hs|done|].
      simpl in Hroom |- *.
      assert (Hlt : (failure_threshold cb0 <=? failure_count cb0 + 1) = false)
        by (apply Z.leb_gt; lia).
      rewrite Hlt in Hstate1.
      split; [congruence|]. split; lia.
    - destruct (Hc w0) as (v & w1 & Hret).
      rewrite (call_success_closed cb0 _ _ _ w0 v w1 Hs Hret).
      simpl in Hroom |- *. split; [done|]. split; lia. }
  split; [exact Hbefore|].
  intros Hfinal Hreach. rewrite call_all_snoc. cbv zeta. fold before.
  destruct Hbefore as (Hs & Hcount & Hth).
  destruct before as [cb0 w0]. simpl in *.
  destruct (Hfinal w0) as (e & w1 & Hraise).
  destruct (call_failure cb0 (bc_now final) (bc_func final)
              (bc_now_failure final) w0 cb0 e w1)
    as (cb1 & -> & _ & _ & _ & Hstate1);
    [by apply call_gate_not_open; rewrite Hs|done|].
  simpl. rewrite Hstate1, Hth, Hcount.
  destruct (Z.leb_spec (failure_threshold cb) (failure_count cb + k + 1));
    [done|lia].
Qed.

(** Two failures with a success in between, on a breaker with
    threshold 3; a third failure opens it. *)
Lemma failures_accumulate_across_successes_witness :
  let e := mkExc "ConnectionError" "reset" in
  let bad t := mkBreakerCall t (raising_op e) t in
  let good t := mkBreakerCall t (λ w : unit, (Return (), w)) t in
  state (call_all [bad 10; good 20; bad 30; bad 40]
                  (CircuitBreaker_init 3 60) ()).1 = OPEN.
Proof.
  intros e bad good.
  destruct (failures_accumulate_across_successes unit unit
              [(true, bad 10); (false, good 20); (true, bad 30)] (bad 40)
              (CircuitBreaker_init 3 60) ()) as (_ & Hopen).
  - apply Forall_cons; split; [intros w; exists e, w; reflexivity|].
    apply Forall_cons; split; [intros w; exists (), w; reflexivity|].
    apply Forall_cons; split; [intros w; exists e, w; reflexivity|].
    constructor.
  - reflexivity.
  - vm_compute. reflexivity.
  - apply Hopen; [intros w; exists e, w; reflexivity|vm_compute; reflexivity].
Defined.

Lemma call_gate_keeps_time cb now cb' :
  call_gate cb now = inl cb' →
  last_failure_time cb' = last_failure_time cb
  ∧ recovery_timeout cb' = recovery_timeout cb.
Proof.
  unfold call_gate. intros Hgate.
  destruct (state cb); try (injection Hgate as <-; by split).
  destruct (last_failure_time cb) eqn:Hlast; [|done].
  destruct (_ <? _); [|done]. injection Hgate as <-. by split.
Qed.

Lemma call_preserves_sanity {A W} cb now (func : W → Outcome A * W)
    now_failure w :
  0 ≤ failure_count cb ∧ tripped_has_time cb →
  0 ≤ failure_count (call cb now func now_failure w).1.2
  ∧ tripped_has_time (call cb now func now_failure w).1.2.
Proof.
  intros [Hcount Htime]. unfold call.
  destruct (call_gate cb now) as [cb1|e] eqn:Hgate; [|done].
  destruct (call_gate_preserves _ _ _ Hgate) as (_ & Hc1 & Hs1).
  destruct (call_gate_keeps_time _ _ _ Hgate) as (Ht1 & _).
  unfold call_try, tripped_has_time in *.
  destruct (func w) as [[v|e] w1]; simpl.
  - case_decide; simpl; [split; [lia|done]|].
    rewrite Hc1, Ht1. split; [done|]. intros Hs. apply Htime.
    destruct Hs1 as [<-|[-> _]]; done.
  - destruct (_ <=? _); simpl; (split; [lia|by eauto]).
Qed.

(** X14. A breaker that was constructed and only ever used through [call]
    has a failure count of at least 0 and, whenever it is not CLOSED, the
    time of a failure on record: the check of an OPEN breaker never fails
    on a missing [last_failure_time]. *)
Theorem open_breaker_has_failure_time :
  ∀ cb, reachable cb →
    0 ≤ failure_count cb
    ∧ (state cb ≠ CLOSED → is_Some (last_failure_time cb))
    ∧ ∀ now, call_gate cb now ≠ inr none_operand_exception.
Proof.
  intros cb Hreach.
  assert (Hsane : 0 ≤ failure_count cb ∧ tripped_has_time cb).
  { induction Hreach as [threshold timeout
                        |A W cb now func now_failure w _ IH
                        |cb now cb' _ IH Hgate].
    - split; [done|]. by intros Hs.
    - by apply call_preserves_sanity.
    - destruct IH as [Hcount Htime].
      destruct (call_gate_preserves _ _ _ Hgate) as (_ & -> & Hs).
      destruct (call_gate_keeps_time _ _ _ Hgate) as (Ht & _).
      split; [done|]. unfold tripped_has_time in *. rewrite Ht.
      intros Hs'. apply Htime. destruct Hs as [<-|[-> _]]; done. }
  destruct Hsane as [Hcount Htime]. split; [done|]. split; [exact Htime|].
  intros now. unfold call_gate.
  destruct (state cb) eqn:Hs; try done.
  destruct (Htime ltac:(by rewrite Hs)) as [t ->].
  by destruct (_ <? _).
Qed.

Lemma open_breaker_has_failure_time_witness :
  is_Some (last_failure_time (mkBreaker 2 60 2 (Some 20) HALF_OPEN)).
Proof.
  destruct (open_breaker_has_failure_time
              (mkBreaker 2 60 2 (Some 20) HALF_OPEN)
              half_open_example_reachable) as (_ & Htime & _).
  apply Htime. discriminate.
Defined.

Lemma td_seconds_range (d : timedelta) : 0 ≤ td_seconds d ≤ 86399.
Proof.
  unfold td_seconds, us_per_day, seconds_per_day, us_per_second.
  pose proof (Z.mod_pos_bound d (86400 * 1000000) ltac:(lia)) as Hmod.
  split.
  - apply Z.div_pos; lia.
  - assert (d mod (86400 * 1000000) / 1000000 < 86400); [|lia].
    apply Z.div_lt_upper_bound; lia.
Qed.

(** X15. A breaker whose [recovery_timeout] is 86399 seconds or more never
    leaves the OPEN state: whenever the calls are made, every one is
    rejected, the operations are not invoked, and breaker and world stay
    as they were. The [seconds] field the check reads cannot exceed
    86399. *)
Theorem day_long_timeout_never_recovers :
  ∀ (A W : Type) (calls : list (BreakerCall A W)) (cb : CircuitBreaker)
    (w : W),
    state cb = OPEN →
    86399 ≤ recovery_timeout cb →
    call_all calls cb w = (cb, w)
    ∧ ∀ now (func : W → Outcome A * W) now_failure,
        ∃ e, call cb now func now_failure w = (Raise e, cb, w).
Proof.
  intros A W calls cb w Hopen Htimeout.
  assert (Hreject : ∀ now (func : W → Outcome A * W) now_failure w',
             ∃ e, call cb now func now_failure w' = (Raise e, cb, w')).
  { intros now func now_failure w'. unfold call, call_gate. rewrite Hopen.
    destruct (last_failure_time cb) as [last|]; [|by eexists].
    pose proof (td_seconds_range (now - last)).
    destruct (Z.ltb_spec (recovery_timeout cb) (td_seconds (now - last)));
      [lia|by eexists]. }
  split; [|intros; apply Hreject].
  induction calls as [|c calls IH] using rev_ind; [done|].
  rewrite call_all_snoc, IH. cbv zeta. simpl.
  destruct (Hreject (bc_now c) (bc_func c) (bc_now_failure c) w) as [e ->].
  done.
Qed.

Lemma day_long_timeout_never_recovers_witness :
  let cb := mkBreaker 5 86400 5 (Some 0) OPEN in
  let later t := mkBreakerCall (timedelta_of_days t)
                               (λ w : unit, (Return 1, w))
                               (timedelta_of_days t) in
  call_all [later 1; later 2; later 30] cb () = (cb, ()).
Proof.
  intros cb later.
  destruct (day_long_timeout_never_recovers Z unit
              [later 1; later 2; later 30] cb ()) as [Hall _];
    [reflexivity|vm_compute; discriminate|exact Hall].
Defined.

Lemma call_failure_time {A W} cb now (func : W → Outcome A * W) now_failure w
    cb1 e w1 :
  call_gate cb now = inl cb1 →
  func w = (Raise e, w1) →
  last_failure_time (call cb now func now_failure w).1.2 = Some now_failure.
Proof.
  intros Hgate Hraise. unfold call, call_try. rewrite Hgate, Hraise. simpl.
  by destruct (_ <=? _).
Qed.

(** X16. A trial that fails starts the waiting time afresh: when an OPEN
    breaker lets a call through and the operation raises, the breaker is
    OPEN again with the time of this failure on record, and any call made
    within the same day while no more than [recovery_timeout] whole
    seconds have passed since then is rejected without invoking its
    operation. *)
Theorem failed_trial_restarts_the_timeout :
  ∀ (A W : Type) cb now last (func : W → Outcome A * W) now_failure w e w1,
    reachable cb →
    state cb = OPEN →
    last_failure_time cb = Some last →
    recovery_timeout cb < td_seconds (now - last) →
    func w = (Raise e, w1) →
    ∃ cb',
      call cb now func now_failure w = (Raise e, cb', w1)
      ∧ state cb' = OPEN
      ∧ last_failure_time cb' = Some now_failure
      ∧ ∀ now2 (func2 : W → Outcome A * W) now_failure2 w2,
          0 ≤ now2 - now_failure < us_per_day →
          (now2 - now_failure) / us_per_second ≤ recovery_timeout cb →
          call cb' now2 func2 now_failure2 w2
          = (Raise circuit_open_exception, cb', w2).
Proof.
  intros A W cb now last func now_failure w e w1 Hreach Hopen Hlast Hpast
         Hraise.
  assert (Hgate : call_gate cb now = inl (set_state HALF_OPEN cb)).
  { rewrite (call_gate_open cb now last Hopen Hlast).
    apply Z.ltb_lt in Hpast. by rewrite Hpast. }
  pose proof (reachable_consistent cb Hreach) as Hinv.
  assert (Hth : failure_threshold cb ≤ failure_count cb)
    by (apply Hinv; by rewrite Hopen).
  pose proof (call_failure_time cb now func now_failure w _ e w1 Hgate Hraise)
    as Htime.
  destruct (call_failure cb now func now_failure w _ e w1 Hgate Hraise)
    as (cb' & Hcall & _ & Hto & _ & Hstate).
  rewrite Hcall in Htime. simpl in Htime.
  assert (Hopen' : state cb' = OPEN).
  { rewrite Hstate.
    destruct (Z.leb_spec (failure_threshold cb) (failure_count cb + 1));
      [done|lia]. }
  exists cb'. split; [done|]. split; [done|]. split; [done|].
  intros now2 func2 now_failure2 w2 Hday Hwait.
  rewrite (call_open_same_day cb' now2 now_failure func2 now_failure2 w2
             Hopen' Htime Hday), Hto.
  destruct (Z.ltb_spec (recovery_timeout cb)
              ((now2 - now_failure) / us_per_second)); [lia|done].
Qed.

Lemma failed_trial_restarts_the_timeout_witness :
  let e := mkExc "ConnectionError" "reset" in
  let cb := mkBreaker 2 60 2 (Some 20) OPEN in
  ∃ cb',
    call cb 100000000 (raising_op e) 100000020 () = (Raise e, cb', ())
    ∧ state cb' = OPEN
    ∧ last_failure_time cb' = Some 100000020
    ∧ call cb' (100000020 + timedelta_of_seconds 60)
           (λ w : unit, (Return (), w)) 0 ()
      = (Raise circuit_open_exception, cb', ()).
Proof.
  intros e cb.
  assert (Hreach : reachable cb).
  { change (reachable
              (call (mkBreaker 2 60 1 (Some 10) CLOSED) 20 (raising_op e)
                    20 ()).1.2).
    apply reach_call.
    change (reachable
              (call (CircuitBreaker_init 2 60) 10 (raising_op e) 10 ()).1.2).
    apply reach_call, reach_init. }
  destruct (failed_trial_restarts_the_timeout unit unit cb 100000000 20
              (raising_op e) 100000020 () e () Hreach eq_refl eq_refl)
    as (cb' & Hcall & Hopen & Htime & Hreject);
    [vm_compute; reflexivity|reflexivity|].
  exists cb'. split; [exact Hcall|]. split; [exact Hopen|].
  split; [exact Htime|].
  apply Hreject; vm_compute; [split; [discriminate|reflexivity]|discriminate].
Defined.

End circuit_breaker_further.
